(** * Header-extension negotiation and acknowledged-bitrate tracking

    A shallow embedding of [media/engine/webrtc_media_engine.cc]
    ([ValidateRtpExtensions], [FilterRtpExtensions],
    [GetBitrateConfigForCodec]) and of the acknowledged bitrate tracker that
    [acknowledged_bitrate_estimator_unittest.cc] exercises, followed by the
    properties stated for them. *)

From Stdlib Require Import ZArith Ascii String Lia.
From stdpp Require Import base tactics list sets sorting strings.

Local Open Scope Z_scope.

(** ** Data model *)

(** [webrtc::RtpExtension]: the three fields the engine reads. *)
Record RtpExtension := mkRtpExtension {
  uri : string;
  id : Z;
  encrypt : bool
}.

#[global] Instance RtpExtension_eq_dec : EqDecision RtpExtension.
Proof. solve_decision. Defined.

(** Constants of [webrtc::RtpExtension] that [api/rtp_parameters.h] declares.
    The header is not among the sources, so they are parameters of the
    development. *)
Class RtpExtensionConstants := {
  kMinId : Z;
  kMaxId : Z;
  kTransportSequenceNumberUri : string;
  kAbsSendTimeUri : string;
  kTimestampOffsetUri : string
}.

(** The values WebRTC ships; used to run the definitions on concrete inputs. *)
Definition webrtc_constants : RtpExtensionConstants := {|
  kMinId := 1;
  kMaxId := 255;
  kTransportSequenceNumberUri :=
    "http://www.ietf.org/id/draft-holmer-rmcat-transport-wide-cc-extensions-01";
  kAbsSendTimeUri :=
    "http://www.webrtc.org/experiments/rtp-hdrext/abs-send-time";
  kTimestampOffsetUri := "urn:ietf:params:rtp-hdrext:toffset"
|}.

(** ** ValidateRtpExtensions *)

Section Validate.
Context `{RtpExtensionConstants}.

(** The loop body of [ValidateRtpExtensions]; [id_used] is the local array
    [bool id_used[1 + kMaxId]], indexed by the extension id. *)
Fixpoint ValidateRtpExtensions_loop
    (id_used : list bool) (extensions : list RtpExtension) : bool :=
  match extensions with
  | [] => true
  | extension :: rest =>
      if (id extension <? kMinId) || (id extension >? kMaxId) then false
      else if (id_used !!! Z.to_nat (id extension) : bool) then false
      else ValidateRtpExtensions_loop
             (<[Z.to_nat (id extension) := true]> id_used) rest
  end.

Definition ValidateRtpExtensions (extensions : list RtpExtension) : bool :=
  ValidateRtpExtensions_loop
    (replicate (Z.to_nat (1 + kMaxId)) false) extensions.
End Validate.

(** ** FilterRtpExtensions *)

(** The comparator handed to [absl::c_sort]:
    [rhs.encrypt == lhs.encrypt ? rhs.uri < lhs.uri : rhs.encrypt > lhs.encrypt].
    [std::string]'s [<] is the byte-wise lexicographic order, [String.ltb]. *)
Definition sort_less (rhs lhs : RtpExtension) : bool :=
  if Bool.eqb (encrypt rhs) (encrypt lhs)
  then String.ltb (uri rhs) (uri lhs)
  else encrypt rhs && negb (encrypt lhs).

(** [absl::c_sort] is [std::sort]: the result is ordered by the comparator and
    the order of entries the comparator does not separate is left to the
    library.  The model is the insertion sort that the library runs on short
    ranges; it keeps such entries in their input order.  On longer ranges the
    library may order them differently: the model fixes one admissible
    order, and [c_sort_perm] and [c_sort_sorted] hold of every one. *)
Fixpoint c_sort_insert (less : RtpExtension → RtpExtension → bool)
    (x : RtpExtension) (l : list RtpExtension) : list RtpExtension :=
  match l with
  | [] => [x]
  | y :: l' => if less y x then y :: c_sort_insert less x l' else x :: y :: l'
  end.

Fixpoint c_sort (less : RtpExtension → RtpExtension → bool)
    (l : list RtpExtension) : list RtpExtension :=
  match l with
  | [] => []
  | x :: l' => c_sort_insert less x (c_sort less l')
  end.

(** The predicate handed to [std::unique]. *)
Definition unique_pred (rhs lhs : RtpExtension) : bool :=
  String.eqb (uri rhs) (uri lhs) && Bool.eqb (encrypt rhs) (encrypt lhs).

(** [std::unique] followed by [erase(it, end)]: every entry is compared with
    the last entry kept and dropped when the predicate holds. *)
Fixpoint unique_from (pred : RtpExtension → RtpExtension → bool)
    (kept : RtpExtension) (l : list RtpExtension) : list RtpExtension :=
  match l with
  | [] => []
  | x :: l' =>
      if pred kept x then unique_from pred kept l'
      else x :: unique_from pred x l'
  end.

Definition unique (pred : RtpExtension → RtpExtension → bool)
    (l : list RtpExtension) : list RtpExtension :=
  match l with
  | [] => []
  | x :: l' => x :: unique_from pred x l'
  end.

(** [DiscardRedundantExtensions]: for every uri of the priority list, in
    order, [absl::c_find_if] locates the first entry with that uri; it is
    erased when an earlier uri of the list had been found. *)
Fixpoint DiscardRedundantExtensions_loop (found : bool)
    (extensions_decreasing_prio : list string)
    (extensions : list RtpExtension) : list RtpExtension :=
  match extensions_decreasing_prio with
  | [] => extensions
  | u :: prio =>
      match list_find (λ rhs, uri rhs = u) extensions with
      | Some (it, _) =>
          DiscardRedundantExtensions_loop true prio
            (if found then delete it extensions else extensions)
      | None => DiscardRedundantExtensions_loop found prio extensions
      end
  end.

Definition DiscardRedundantExtensions
    (extensions : list RtpExtension)
    (extensions_decreasing_prio : list string) : list RtpExtension :=
  DiscardRedundantExtensions_loop false extensions_decreasing_prio extensions.

Section Filter.
Context `{RtpExtensionConstants}.

(** [kBweExtensionPriorities], chosen by the field trial
    [WebRTC-KeepAbsSendTimeExtension]; the trial is the explicit argument
    [keep_abs_send_time]. *)
Definition kBweExtensionPriorities (keep_abs_send_time : bool) : list string :=
  if keep_abs_send_time
  then [kAbsSendTimeUri; kTimestampOffsetUri]
  else [kTransportSequenceNumberUri; kAbsSendTimeUri; kTimestampOffsetUri].

(** [FilterRtpExtensions].  [RTC_DCHECK(ValidateRtpExtensions(extensions))]
    is a precondition: the statements below assume it. *)
Definition FilterRtpExtensions (keep_abs_send_time : bool)
    (extensions : list RtpExtension) (supported : string → bool)
    (filter_redundant_extensions : bool) : list RtpExtension :=
  let result := filter (λ extension, supported (uri extension)) extensions in
  let result := c_sort sort_less result in
  if filter_redundant_extensions
  then DiscardRedundantExtensions (unique unique_pred result)
         (kBweExtensionPriorities keep_abs_send_time)
  else result.
End Filter.

(** ** GetBitrateConfigForCodec *)

(** [webrtc::BitrateConstraints]; the three fields are C++ [int]s. *)
Record BitrateConstraints := mkBitrateConstraints {
  min_bitrate_bps : Z;
  start_bitrate_bps : Z;
  max_bitrate_bps : Z
}.

(** A C++ [int] is 32 bits wide.  Overflow of [bitrate_kbps * 1000] is
    undefined in the language; the model takes the two's complement result
    that the compiled code produces. *)
Definition int_wrap (z : Z) : Z := (z + 2 ^ 31) mod 2 ^ 32 - 2 ^ 31.

Definition int_mul (a b : Z) : Z := int_wrap (a * b).

(** What [media/base/codec.h] and [media/base/media_constants.h] declare and
    the function uses; neither is among the sources.  [GetParam codec name]
    is [Some v] when [codec.GetParam(name, &bitrate_kbps)] returns true and
    stores [v], and [None] when it returns false: after a false return
    [bitrate_kbps] is not read, since [&&] does not evaluate its right-hand
    side. *)
Class CodecInterface (Codec : Type) := {
  GetParam : Codec → string → option Z;
  kCodecParamMinBitrate : string;
  kCodecParamStartBitrate : string;
  kCodecParamMaxBitrate : string
}.

Section BitrateConfig.
Context {Codec : Type} `{CodecInterface Codec}.

Definition GetBitrateConfigForCodec (codec : Codec) : BitrateConstraints :=
  let min_bitrate_bps :=
    match GetParam codec kCodecParamMinBitrate with
    | Some bitrate_kbps =>
        if bitrate_kbps >? 0 then int_mul bitrate_kbps 1000 else 0
    | None => 0
    end in
  let start_bitrate_bps :=
    match GetParam codec kCodecParamStartBitrate with
    | Some bitrate_kbps =>
        if bitrate_kbps >? 0 then int_mul bitrate_kbps 1000 else -1
    | None => -1
    end in
  let max_bitrate_bps :=
    match GetParam codec kCodecParamMaxBitrate with
    | Some bitrate_kbps =>
        if bitrate_kbps >? 0 then int_mul bitrate_kbps 1000 else -1
    | None => -1
    end in
  mkBitrateConstraints min_bitrate_bps start_bitrate_bps max_bitrate_bps.
End BitrateConfig.

(** A codec as its list of integer-valued parameters, with the parameter
    names WebRTC ships; used to run [GetBitrateConfigForCodec]. *)
Fixpoint param_lookup (params : list (string * Z)) (name : string) : option Z :=
  match params with
  | [] => None
  | (k, v) :: rest => if String.eqb k name then Some v else param_lookup rest name
  end.

Definition param_list_codec : CodecInterface (list (string * Z)) := {|
  GetParam := param_lookup;
  kCodecParamMinBitrate := "x-google-min-bitrate";
  kCodecParamStartBitrate := "x-google-start-bitrate";
  kCodecParamMaxBitrate := "x-google-max-bitrate"
|}.

(** ** Acknowledged bitrate tracker *)

(** Modelled from the spec: the [PacketFeedback] record of the data model
    ([PacketResult] in the test, declared outside the sources); times are in
    milliseconds and sizes in bytes. *)
Record PacketFeedback := mkPacketFeedback {
  sequence_number : Z;
  send_time : Z;
  receive_time : Z;
  payload_size : Z
}.

(** The capability set of the owned single-packet estimator
    ([BitrateEstimator] in the test, with [Update], [bitrate] and
    [ExpectFastRateChange]). *)
Class BitrateEstimator (E : Type) := {
  Update : E → Z → Z → bool → E;
  bitrate : E → option Z;
  ExpectFastRateChange : E → E
}.

(** Modelled from the spec: the state of the tracker, whose class
    [AcknowledgedBitrateEstimator] is declared outside the sources: the
    estimator it owns and the optional marker [alr_ended_time]. *)
Record AcknowledgedBitrateEstimator (E : Type) := mkAcknowledgedBitrateEstimator {
  bitrate_estimator : E;
  alr_ended_time : option Z
}.
Arguments mkAcknowledgedBitrateEstimator {E} _ _.
Arguments bitrate_estimator {E} _.
Arguments alr_ended_time {E} _.

Section Tracker.
Context {E : Type} `{BitrateEstimator E}.

(** Modelled from the spec: the constructor of the tracker, whose source
    [acknowledged_bitrate_estimator.cc] is absent; the initial state is
    [Idle], no marker armed. *)
Definition CreateTracker (estimator : E) : AcknowledgedBitrateEstimator E :=
  mkAcknowledgedBitrateEstimator estimator None.

(** Modelled from the spec: [SetAlrEndedTime], whose source
    [acknowledged_bitrate_estimator.cc] is absent; it overwrites the stored
    marker unconditionally. *)
Definition SetAlrEndedTime (t : Z) (s : AcknowledgedBitrateEstimator E)
    : AcknowledgedBitrateEstimator E :=
  mkAcknowledgedBitrateEstimator (bitrate_estimator s) (Some t).

(** Modelled from the spec: the per-record step of [ProcessFeedbackBatch]
    ([IncomingPacketFeedbackVector] in the test), whose source
    [acknowledged_bitrate_estimator.cc] is absent.  Step 1 fires and clears
    the marker when it is set and [receive_time ≥ alr_ended_time]; step 2
    forwards the record with the [in_alr] flag supplied alongside it. *)
Definition ProcessFeedbackRecord (s : AcknowledgedBitrateEstimator E)
    (rec : PacketFeedback * bool) : AcknowledgedBitrateEstimator E :=
  let '(packet, in_alr) := rec in
  let s1 :=
    match alr_ended_time s with
    | Some t =>
        if receive_time packet >=? t
        then mkAcknowledgedBitrateEstimator
               (ExpectFastRateChange (bitrate_estimator s)) None
        else s
    | None => s
    end in
  mkAcknowledgedBitrateEstimator
    (Update (bitrate_estimator s1) (receive_time packet) (payload_size packet)
       in_alr)
    (alr_ended_time s1).

(** Modelled from the spec: [ProcessFeedbackBatch]
    ([IncomingPacketFeedbackVector] in the test), whose source
    [acknowledged_bitrate_estimator.cc] is absent; the records are processed
    in the order supplied. *)
Definition IncomingPacketFeedbackVector (s : AcknowledgedBitrateEstimator E)
    (packet_feedback_vector : list (PacketFeedback * bool))
    : AcknowledgedBitrateEstimator E :=
  foldl ProcessFeedbackRecord s packet_feedback_vector.

(** Modelled from the spec: [bitrate()] of the tracker, whose source
    [acknowledged_bitrate_estimator.cc] is absent; it returns the owned
    estimator's value unmodified. *)
Definition tracker_bitrate (s : AcknowledgedBitrateEstimator E) : option Z :=
  bitrate (bitrate_estimator s).
End Tracker.

(** [MockBitrateEstimator] of the test: it records the calls it receives and
    answers [bitrate()] with a preset value. *)
Inductive MockCall :=
  | CallUpdate (at_time data_size : Z) (in_alr : bool)
  | CallExpectFastRateChange.

Record MockBitrateEstimator := mkMockBitrateEstimator {
  calls : list MockCall;
  return_value : option Z
}.

#[global] Instance MockBitrateEstimator_estimator
    : BitrateEstimator MockBitrateEstimator := {|
  Update m at_time data_size in_alr :=
    mkMockBitrateEstimator
      (calls m ++ [CallUpdate at_time data_size in_alr]) (return_value m);
  bitrate m := return_value m;
  ExpectFastRateChange m :=
    mkMockBitrateEstimator
      (calls m ++ [CallExpectFastRateChange]) (return_value m)
|}.

(** The constants of the test. *)
Definition kFirstArrivalTimeMs : Z := 10.
Definition kFirstSendTimeMs : Z := 10.
Definition kSequenceNumber : Z := 1.
Definition kPayloadSize : Z := 10.

(** [CreateFeedbackVector] of the test: two records, received at 10 ms and
    20 ms, of 10 and 20 bytes; the test expects [in_alr = false]. *)
Definition CreateFeedbackVector : list (PacketFeedback * bool) :=
  [(mkPacketFeedback kSequenceNumber kFirstSendTimeMs kFirstArrivalTimeMs
      kPayloadSize, false);
   (mkPacketFeedback kSequenceNumber (kFirstSendTimeMs + 10)
      (kFirstArrivalTimeMs + 10) (kPayloadSize + 10), false)].

(** ** Vocabulary of the statements *)

(** The id of [e] lies in [[kMinId, kMaxId]]. *)
Definition id_in_range `{RtpExtensionConstants} (e : RtpExtension) : Prop :=
  kMinId ≤ id e ∧ id e ≤ kMaxId.

(** What the sort comparator and the [std::unique] predicate look at. *)
Definition ext_key (e : RtpExtension) : bool * string := (encrypt e, uri e).

(** [x] may stand before [y] in a sorted result: the comparator does not put
    [y] before [x]. *)
Definition sort_le (x y : RtpExtension) : Prop := sort_less y x = false.

(** [x] must stand before [y]. *)
Definition sort_lt (x y : RtpExtension) : Prop := sort_less x y = true.

(** At most one entry of [l] carries the uri [u]. *)
Definition at_most_one_uri (u : string) (l : list RtpExtension) : Prop :=
  ∀ i j a b, l !! i = Some a → l !! j = Some b → uri a = u → uri b = u → i = j.

(** The canonical order of a negotiated list: an encrypted entry never follows
    an unencrypted one, and within one encryption state the uris ascend
    lexicographically. *)
Definition canonical_order (a b : RtpExtension) : Prop :=
  (encrypt b = true → encrypt a = true) ∧
  (encrypt a = encrypt b → String.leb (uri a) (uri b) = true).

(** Every uri of the priority list ranked below a supported uri of the input
    occurs among the supported candidates in one encryption form only. *)
Definition outranked_in_one_form `{RtpExtensionConstants}
    (keep_abs_send_time : bool) (extensions : list RtpExtension)
    (supported : string → bool) : Prop :=
  ∀ hi u lo,
    kBweExtensionPriorities keep_abs_send_time = hi ++ u :: lo →
    (∃ c, c ∈ extensions ∧ supported (uri c) ∧ uri c = u) →
    ∀ a b, a ∈ extensions → b ∈ extensions → supported (uri a) →
           uri a ∈ lo → uri b = uri a → encrypt a = encrypt b.

(** The order of the comparator, read on keys. *)
Definition of_key (k : bool * string) : RtpExtension :=
  mkRtpExtension k.2 0 k.1.

Definition key_le (k1 k2 : bool * string) : Prop :=
  sort_le (of_key k1) (of_key k2).

(** The entries of [l] whose uri belongs to [group]. *)
Definition group_entries (group : list string) (l : list RtpExtension)
    : list RtpExtension :=
  filter (λ e, uri e ∈ group) l.

(** The value the specification gives a field of the bitrate constraints:
    1000 times the parameter when it is present and strictly positive, the
    default otherwise. *)
Definition scaled_or (default : Z) (param : option Z) : Z :=
  match param with
  | Some bitrate_kbps => if bitrate_kbps >? 0 then 1000 * bitrate_kbps else default
  | None => default
  end.

(** The parameter, when present, is at most 2147483 kbps: 1000 times it
    fits a 32-bit [int]. *)
Definition product_fits_int (param : option Z) : Prop :=
  match param with
  | Some bitrate_kbps => bitrate_kbps ≤ 2147483
  | None => True
  end.

(** The [Update] calls a batch gives rise to, in batch order. *)
Definition update_calls (batch : list (PacketFeedback * bool)) : list MockCall :=
  (λ rec, CallUpdate (receive_time rec.1) (payload_size rec.1) rec.2) <$> batch.

(** The predicate of a caller that supports every uri. *)
Definition all_supported (_ : string) : bool := true.

(** The call is [ExpectFastRateChange()]. *)
Definition is_expect_call (c : MockCall) : bool :=
  match c with
  | CallExpectFastRateChange => true
  | CallUpdate _ _ _ => false
  end.

(** [u] is the highest-priority uri of the active priority list that a
    supported candidate carries: some supported candidate carries it, and
    none carries a uri ranked before it. *)
Definition highest_priority_supported `{RtpExtensionConstants}
    (keep_abs_send_time : bool) (extensions : list RtpExtension)
    (supported : string → bool) (u : string) : Prop :=
  ∃ hi lo,
    kBweExtensionPriorities keep_abs_send_time = hi ++ u :: lo ∧
    (∃ c, c ∈ extensions ∧ supported (uri c) = true ∧ uri c = u) ∧
    (∀ c, c ∈ extensions → supported (uri c) = true → uri c ∉ hi).

(** * Properties *)

(** ** ValidateRtpExtensions *)

Section ValidateFacts.
Context `{RtpExtensionConstants}.

Lemma range_test_false e :
  (id e <? kMinId) || (id e >? kMaxId) = false ↔ id_in_range e.
Proof. unfold id_in_range. rewrite orb_false_iff, Z.ltb_ge, Z.gtb_ltb, Z.ltb_ge. tauto. Qed.

(** The loop invariant: the loop accepts exactly the lists whose ids are in
    range, pairwise distinct, and not yet marked in [id_used]. *)
Lemma ValidateRtpExtensions_loop_true (extensions : list RtpExtension) :
  0 ≤ kMinId →
  ∀ id_used : list bool,
  length id_used = Z.to_nat (1 + kMaxId) →
  ValidateRtpExtensions_loop id_used extensions = true ↔
    Forall id_in_range extensions ∧
    NoDup (id <$> extensions) ∧
    Forall (λ e, id_used !!! Z.to_nat (id e) = false) extensions.
Proof.
  intros Hmin. induction extensions as [|e rest IH]; intros id_used Hlen; simpl.
  { split; [intros _; split_and!; constructor | done]. }
  destruct ((id e <? kMinId) || (id e >? kMaxId)) eqn:Hrange.
  { split; [done|]. intros (Hr & _). apply Forall_cons_1 in Hr as [Hr _].
    apply range_test_false in Hr. congruence. }
  apply range_test_false in Hrange. destruct Hrange as [Hlo Hhi].
  assert (Hidx : (Z.to_nat (id e) < length id_used)%nat) by lia.
  destruct (id_used !!! Z.to_nat (id e)) eqn:Hused.
  { split; [done|]. intros (_ & _ & Hu). apply Forall_cons_1 in Hu as [Hu _].
    congruence. }
  rewrite IH by (by rewrite length_insert).
  rewrite !Forall_cons, NoDup_cons, list_elem_of_fmap.
  assert (Hins : Forall id_in_range rest →
    Forall (λ e', <[Z.to_nat (id e):=true]> id_used !!! Z.to_nat (id e') = false) rest ↔
    (¬ (∃ y, id e = id y ∧ y ∈ rest)) ∧
    Forall (λ e', id_used !!! Z.to_nat (id e') = false) rest).
  { intros Hr. rewrite !Forall_forall. split.
    - intros Hall. split.
      + intros (y & Hy & Hin). specialize (Hall y Hin).
        rewrite <- Hy, list_lookup_total_insert_eq in Hall by done. done.
      + intros y Hin. specialize (Hall y Hin).
        destruct (decide (id e = id y)) as [Heq|Hne].
        * rewrite <- Heq, list_lookup_total_insert_eq in Hall by done. done.
        * rewrite list_lookup_total_insert_ne in Hall; [done|].
          rewrite Forall_forall in Hr. destruct (Hr y Hin). lia.
    - intros [Hfresh Hall] y Hin.
      rewrite list_lookup_total_insert_ne; [by apply Hall|].
      rewrite Forall_forall in Hr. destruct (Hr y Hin).
      intros Heq. apply Hfresh. exists y. split; [lia|done]. }
  unfold id_in_range at 2. split.
  - intros (Hr & Hnd & Hu). apply Hins in Hu as [Hfresh Hu]; [|done].
    split_and!; done.
  - intros ((_ & Hr) & (Hfresh & Hnd) & (_ & Hu)).
    split_and!; [done..|]. apply Hins; done.
Qed.

Lemma ValidateRtpExtensions_true (extensions : list RtpExtension) :
  0 ≤ kMinId →
  ValidateRtpExtensions extensions = true ↔
    Forall id_in_range extensions ∧ NoDup (id <$> extensions).
Proof.
  intros Hmin. unfold ValidateRtpExtensions.
  rewrite ValidateRtpExtensions_loop_true by (done || by rewrite length_replicate).
  split; [tauto|]. intros [Hr Hnd]. split_and!; [done..|].
  apply Forall_forall. intros e He.
  rewrite Forall_forall in Hr. destruct (Hr e He).
  apply list_lookup_total_correct, lookup_replicate_2. lia.
Qed.
End ValidateFacts.

(** ** The comparator is a strict weak order *)

Lemma ascii_compare_lt_trans (a b c : ascii) :
  Ascii.compare a b = Lt → Ascii.compare b c = Lt → Ascii.compare a c = Lt.
Proof. unfold Ascii.compare. rewrite !N.compare_lt_iff. lia. Qed.

Lemma string_compare_refl (s : string) : String.compare s s = Eq.
Proof.
  induction s as [|a s IH]; simpl; [done|].
  unfold Ascii.compare. by rewrite N.compare_refl.
Qed.

Lemma string_compare_lt_trans (a b c : string) :
  String.compare a b = Lt → String.compare b c = Lt → String.compare a c = Lt.
Proof.
  revert b c. induction a as [|x a IH]; intros [|y b] [|z c]; simpl; try done.
  destruct (Ascii.compare x y) eqn:Hxy; try done.
  - apply Ascii.compare_eq_iff in Hxy as ->.
    destruct (Ascii.compare y z); try done. apply IH.
  - intros _. destruct (Ascii.compare y z) eqn:Hyz; try done.
    + apply Ascii.compare_eq_iff in Hyz as <-. by rewrite Hxy.
    + by rewrite (ascii_compare_lt_trans x y z).
Qed.

Lemma string_ltb_irrefl (s : string) : String.ltb s s = false.
Proof. unfold String.ltb. by rewrite string_compare_refl. Qed.

Lemma string_ltb_trans (a b c : string) :
  String.ltb a b = true → String.ltb b c = true → String.ltb a c = true.
Proof.
  unfold String.ltb. intros Hab Hbc.
  rewrite (string_compare_lt_trans a b c); [done|..].
  - by destruct (String.compare a b).
  - by destruct (String.compare b c).
Qed.

Lemma string_ltb_asym (a b : string) :
  String.ltb a b = true → String.ltb b a = false.
Proof.
  unfold String.ltb. rewrite (String.compare_antisym b a).
  by destruct (String.compare a b).
Qed.

Lemma string_ltb_connex (a b : string) :
  String.ltb a b = false → String.ltb b a = false → a = b.
Proof.
  unfold String.ltb. rewrite (String.compare_antisym b a).
  destruct (String.compare a b) eqn:Hab; try done.
  intros _ _. by apply String.compare_eq_iff.
Qed.

Lemma string_leb_ltb (a b : string) :
  String.leb a b = true ↔ String.ltb b a = false.
Proof.
  unfold String.leb, String.ltb. rewrite (String.compare_antisym b a).
  by destruct (String.compare a b).
Qed.

Lemma string_ltb_false_trans (a b c : string) :
  String.ltb b a = false → String.ltb c b = false → String.ltb c a = false.
Proof.
  intros Hab Hbc. destruct (String.ltb c a) eqn:Hca; [|done].
  destruct (String.ltb a b) eqn:Hab'.
  - by rewrite (string_ltb_trans c a b) in Hbc.
  - assert (a = b) as -> by by apply string_ltb_connex. congruence.
Qed.

Lemma sort_less_irrefl (x : RtpExtension) : sort_less x x = false.
Proof.
  unfold sort_less. rewrite Bool.eqb_reflx. apply string_ltb_irrefl.
Qed.

Lemma sort_less_trans (x y z : RtpExtension) :
  sort_less x y = true → sort_less y z = true → sort_less x z = true.
Proof.
  unfold sort_less.
  destruct (encrypt x), (encrypt y), (encrypt z); simpl; try done;
    apply string_ltb_trans.
Qed.

Lemma sort_less_asym (x y : RtpExtension) :
  sort_less x y = true → sort_less y x = false.
Proof.
  unfold sort_less.
  destruct (encrypt x), (encrypt y); simpl; try done; apply string_ltb_asym.
Qed.

(** Entries the comparator does not separate carry the same key. *)
Lemma sort_less_connex (x y : RtpExtension) :
  sort_less x y = false → sort_less y x = false → ext_key x = ext_key y.
Proof.
  unfold sort_less, ext_key.
  destruct (encrypt x), (encrypt y); simpl; try done;
    intros Hxy Hyx; f_equal; by apply string_ltb_connex.
Qed.

Lemma sort_less_key (x y x' y' : RtpExtension) :
  ext_key x = ext_key x' → ext_key y = ext_key y' →
  sort_less x y = sort_less x' y'.
Proof. unfold ext_key, sort_less. by intros [= -> ->] [= -> ->]. Qed.

Lemma unique_pred_key (x y : RtpExtension) :
  unique_pred x y = true ↔ ext_key x = ext_key y.
Proof.
  unfold unique_pred, ext_key.
  rewrite andb_true_iff, String.eqb_eq, Bool.eqb_true_iff.
  split; [by intros [-> ->] | by intros [= -> ->]].
Qed.

#[global] Instance sort_le_trans : Transitive sort_le.
Proof.
  unfold sort_le, sort_less. intros x y z.
  destruct (encrypt x), (encrypt y), (encrypt z); simpl; try done;
    apply string_ltb_false_trans.
Qed.

#[global] Instance sort_lt_trans : Transitive sort_lt.
Proof. intros x y z. apply sort_less_trans. Qed.

Lemma sort_le_total (x y : RtpExtension) : sort_le x y ∨ sort_le y x.
Proof.
  unfold sort_le. destruct (sort_less y x) eqn:Hyx; [|by left].
  right. by apply sort_less_asym.
Qed.

Lemma sort_lt_le (x y : RtpExtension) : sort_lt x y → sort_le x y.
Proof. apply sort_less_asym. Qed.

Lemma sort_le_lt (x y : RtpExtension) :
  sort_le x y → ext_key x ≠ ext_key y → sort_lt x y.
Proof.
  unfold sort_le, sort_lt. intros Hle Hne.
  destruct (sort_less x y) eqn:Hxy; [done|].
  destruct Hne. by apply sort_less_connex.
Qed.

Lemma sort_lt_key_ne (x y : RtpExtension) :
  sort_lt x y → ext_key x ≠ ext_key y.
Proof.
  unfold sort_lt. intros Hlt Heq.
  rewrite (sort_less_key x y y y) in Hlt by done.
  by rewrite sort_less_irrefl in Hlt.
Qed.

(** ** The sort *)

Lemma c_sort_insert_perm (x : RtpExtension) (l : list RtpExtension) :
  c_sort_insert sort_less x l ≡ₚ x :: l.
Proof.
  induction l as [|y l IH]; simpl; [done|].
  destruct (sort_less y x); [|done].
  by rewrite IH, Permutation_swap.
Qed.

Lemma c_sort_perm (l : list RtpExtension) : c_sort sort_less l ≡ₚ l.
Proof.
  induction l as [|x l IH]; simpl; [done|].
  by rewrite c_sort_insert_perm, IH.
Qed.

Lemma c_sort_insert_sorted (x : RtpExtension) (l : list RtpExtension) :
  StronglySorted sort_le l → StronglySorted sort_le (c_sort_insert sort_less x l).
Proof.
  induction 1 as [|y l Hl IH Hy]; simpl.
  { repeat constructor. }
  destruct (sort_less y x) eqn:Hyx.
  - constructor; [done|].
    rewrite c_sort_insert_perm. constructor; [|done].
    by apply sort_lt_le.
  - constructor; [by constructor|].
    constructor; [done|].
    eapply Forall_impl; [exact Hy|]. intros z Hz.
    by transitivity y.
Qed.

Lemma c_sort_sorted (l : list RtpExtension) :
  StronglySorted sort_le (c_sort sort_less l).
Proof.
  induction l as [|x l IH]; simpl; [constructor|].
  by apply c_sort_insert_sorted.
Qed.

(** A sorted range is left as it is. *)
Lemma c_sort_id (l : list RtpExtension) :
  StronglySorted sort_le l → c_sort sort_less l = l.
Proof.
  induction 1 as [|x l Hl IH Hx]; simpl; [done|].
  rewrite IH. destruct Hx as [|y l Hxy _]; simpl; [done|].
  by rewrite Hxy.
Qed.

Lemma StronglySorted_sublist {A} (R : relation A) (l k : list A) :
  l `sublist_of` k → StronglySorted R k → StronglySorted R l.
Proof.
  induction 1 as [|x l k Hsub IH|x l k Hsub IH]; intros Hk.
  - done.
  - apply StronglySorted_cons in Hk as [Hx Hk].
    constructor; [by apply IH|].
    apply Forall_forall. intros y Hy. rewrite Forall_forall in Hx.
    apply Hx. by eapply elem_of_sublist.
  - apply StronglySorted_cons in Hk as [_ Hk]. by apply IH.
Qed.

(** In a list sorted by the comparator with pairwise distinct keys, the
    order of the entries is forced. *)
Lemma sorted_perm_unique (l k : list RtpExtension) :
  NoDup (ext_key <$> l) →
  StronglySorted sort_le l → StronglySorted sort_le k → l ≡ₚ k → l = k.
Proof.
  intros Hnd Hl Hk Hperm.
  apply (StronglySorted_unique_strong sort_le); [|done..].
  intros x y Hx Hy Hxy Hyx.
  assert (Hy' : y ∈ l) by by rewrite Hperm.
  assert (Hkey : ext_key x = ext_key y) by by apply sort_less_connex.
  apply list_elem_of_lookup in Hx as [i Hi], Hy' as [j Hj].
  assert (i = j) as ->; [|congruence].
  eapply NoDup_lookup; [exact Hnd|..]; rewrite list_lookup_fmap.
  - by rewrite Hi.
  - rewrite Hj. simpl. by rewrite Hkey.
Qed.

(** ** Removal of consecutive duplicates *)

Lemma unique_from_sublist (kept : RtpExtension) (l : list RtpExtension) :
  unique_from unique_pred kept l `sublist_of` l.
Proof.
  revert kept. induction l as [|x l IH]; intros kept; simpl; [done|].
  destruct (unique_pred kept x).
  - by apply sublist_cons.
  - by apply sublist_skip.
Qed.

Lemma unique_sublist (l : list RtpExtension) :
  unique unique_pred l `sublist_of` l.
Proof.
  destruct l as [|x l]; simpl; [done|].
  apply sublist_skip, unique_from_sublist.
Qed.

(** After [std::unique] a sorted range is strictly sorted. *)
Lemma unique_from_sorted (kept : RtpExtension) (l : list RtpExtension) :
  Forall (sort_le kept) l → StronglySorted sort_le l →
  StronglySorted sort_lt (unique_from unique_pred kept l) ∧
  Forall (sort_lt kept) (unique_from unique_pred kept l).
Proof.
  intros Hkept Hl. revert kept Hkept.
  induction Hl as [|x l Hl IH Hx]; intros kept Hkept; simpl.
  { split; constructor. }
  apply Forall_cons_1 in Hkept as [Hkx Hkept].
  destruct (unique_pred kept x) eqn:Hpred.
  - by apply IH.
  - destruct (IH x Hx) as [Hs Hf].
    assert (Hlt : sort_lt kept x).
    { apply sort_le_lt; [done|]. rewrite <- unique_pred_key. congruence. }
    split; [by constructor|].
    constructor; [done|].
    eapply Forall_impl; [exact Hf|]. intros z Hz. by transitivity x.
Qed.

Lemma unique_sorted (l : list RtpExtension) :
  StronglySorted sort_le l → StronglySorted sort_lt (unique unique_pred l).
Proof.
  destruct 1 as [|x l Hl Hx]; simpl; [constructor|].
  destruct (unique_from_sorted x l Hx Hl). by constructor.
Qed.

Lemma sort_lt_sorted_NoDup_keys (l : list RtpExtension) :
  StronglySorted sort_lt l → NoDup (ext_key <$> l).
Proof.
  induction 1 as [|x l Hl IH Hx]; csimpl; constructor; [|done].
  rewrite list_elem_of_fmap. intros (y & Hkey & Hy).
  rewrite Forall_forall in Hx. by apply (sort_lt_key_ne x y); [apply Hx|].
Qed.

Lemma sort_lt_sorted_le (l : list RtpExtension) :
  StronglySorted sort_lt l → StronglySorted sort_le l.
Proof.
  induction 1 as [|x l Hl IH Hx]; constructor; [done|].
  eapply Forall_impl; [exact Hx|]. apply sort_lt_le.
Qed.

(** [std::unique] leaves a range without repeated keys as it is. *)
Lemma unique_from_id (kept : RtpExtension) (l : list RtpExtension) :
  ext_key kept ∉ ext_key <$> l → NoDup (ext_key <$> l) →
  unique_from unique_pred kept l = l.
Proof.
  revert kept. induction l as [|x l IH]; intros kept Hkept Hnd; csimpl in *; [done|].
  apply NoDup_cons in Hnd as [Hx Hnd].
  apply not_elem_of_cons in Hkept as [Hne Hkept].
  destruct (unique_pred kept x) eqn:Hpred.
  - by apply unique_pred_key in Hpred.
  - f_equal. by apply IH.
Qed.

Lemma unique_id (l : list RtpExtension) :
  NoDup (ext_key <$> l) → unique unique_pred l = l.
Proof.
  destruct l as [|x l]; csimpl; [done|].
  intros [Hx Hnd]%NoDup_cons. f_equal. by apply unique_from_id.
Qed.

(** ** DiscardRedundantExtensions *)

Lemma filter_all {A} (P : A → Prop) `{!∀ x, Decision (P x)} (l : list A) :
  Forall P l → filter P l = l.
Proof.
  induction 1 as [|x l Hx Hl IH]; [done|].
  by rewrite filter_cons_True, IH.
Qed.

Lemma at_most_one_uri_tail (u : string) (x : RtpExtension) (l : list RtpExtension) :
  at_most_one_uri u (x :: l) → at_most_one_uri u l.
Proof.
  intros Hone i j a b Hi Hj Ha Hb.
  by apply (inj S), (Hone (S i) (S j) a b).
Qed.

Lemma at_most_one_uri_sublist (u : string) (l k : list RtpExtension) :
  l `sublist_of` k → at_most_one_uri u k → at_most_one_uri u l.
Proof.
  induction 1 as [|x l k Hsub IH|x l k Hsub IH]; intros Hone.
  - done.
  - intros [|i] [|j] a b Hi Hj Ha Hb; simpl in Hi, Hj.
    + done.
    + assert (Hin : b ∈ k).
      { eapply elem_of_sublist; [|done]. by eapply list_elem_of_lookup_2. }
      apply list_elem_of_lookup in Hin as [j' Hj'].
      by specialize (Hone 0%nat (S j') a b Hi Hj' Ha Hb).
    + assert (Hin : a ∈ k).
      { eapply elem_of_sublist; [|done]. by eapply list_elem_of_lookup_2. }
      apply list_elem_of_lookup in Hin as [i' Hi'].
      by specialize (Hone (S i') 0%nat a b Hi' Hj Ha Hb).
    + f_equal. eapply IH; [by eapply at_most_one_uri_tail|done..].
  - apply IH. by eapply at_most_one_uri_tail.
Qed.

(** Erasing the entry that [absl::c_find_if] returns removes the uri from the
    list when the list holds it once. *)
Lemma delete_found (u : string) (l : list RtpExtension) (it : nat) (x : RtpExtension) :
  list_find (λ rhs, uri rhs = u) l = Some (it, x) →
  at_most_one_uri u l →
  delete it l = filter (λ e, uri e ≠ u) l.
Proof.
  revert it. induction l as [|y l IH]; intros it Hfind Hone; [done|].
  cbn in Hfind. destruct (decide (uri y = u)) as [Hy|Hy].
  - injection Hfind as <- <-. simpl.
    rewrite filter_cons_False by (by intros []).
    symmetry. apply filter_all, Forall_lookup. intros j b Hj Hb.
    by specialize (Hone 0%nat (S j) y b eq_refl Hj Hy Hb).
  - destruct (list_find _ l) as [[it' x']|] eqn:Hl; [|done].
    injection Hfind as <- <-. simpl.
    rewrite filter_cons_True by done. f_equal.
    eapply IH; [done|]. by eapply at_most_one_uri_tail.
Qed.

Lemma DiscardRedundantExtensions_loop_sublist
    (found : bool) (prio : list string) (l : list RtpExtension) :
  DiscardRedundantExtensions_loop found prio l `sublist_of` l.
Proof.
  revert found l. induction prio as [|u prio IH]; intros found l; simpl; [done|].
  destruct (list_find _ l) as [[it x]|]; [|apply IH].
  destruct found; [|apply IH].
  etransitivity; [apply IH|apply sublist_delete].
Qed.

(** Once a uri of the list has been found, every later uri that the list of
    extensions holds once is removed. *)
Lemma DiscardRedundantExtensions_loop_found
    (prio : list string) (l : list RtpExtension) :
  (∀ v, v ∈ prio → at_most_one_uri v l) →
  DiscardRedundantExtensions_loop true prio l = filter (λ e, uri e ∉ prio) l.
Proof.
  revert l. induction prio as [|u prio IH]; intros l Hone; simpl.
  { symmetry. apply filter_all, Forall_forall. intros e _. apply not_elem_of_nil. }
  assert (Hfilter : filter (λ e, uri e ∉ u :: prio) l
                    = filter (λ e, uri e ∉ prio) (filter (λ e, uri e ≠ u) l)).
  { rewrite list_filter_filter. apply list_filter_iff. intros e.
    rewrite not_elem_of_cons. tauto. }
  destruct (list_find _ l) as [[it x]|] eqn:Hfind.
  - rewrite (delete_found u l it x) by (done || apply Hone; left).
    rewrite Hfilter. apply IH. intros v Hv.
    eapply at_most_one_uri_sublist; [apply sublist_filter|].
    apply Hone. by right.
  - rewrite Hfilter. apply list_find_None in Hfind.
    rewrite (filter_all (λ e, uri e ≠ u)) by done.
    apply IH. intros v Hv. apply Hone. by right.
Qed.

(** The uris ranked before the first one present play no role. *)
Lemma DiscardRedundantExtensions_first_present
    (hi : list string) (u : string) (lo : list string) (l : list RtpExtension) :
  (∀ v, v ∈ hi → v ∉ uri <$> l) →
  u ∈ uri <$> l →
  (∀ v, v ∈ lo → at_most_one_uri v l) →
  DiscardRedundantExtensions l (hi ++ u :: lo) = filter (λ e, uri e ∉ lo) l.
Proof.
  unfold DiscardRedundantExtensions.
  induction hi as [|w hi IH]; intros Hhi Hu Hlo; simpl.
  - destruct (list_find _ l) as [[it x]|] eqn:Hfind.
    + by apply DiscardRedundantExtensions_loop_found.
    + apply list_find_None in Hfind. apply list_elem_of_fmap in Hu as (e & -> & He).
      rewrite Forall_forall in Hfind. by destruct (Hfind e He).
  - destruct (list_find _ l) as [[it x]|] eqn:Hfind.
    + apply list_find_Some in Hfind as (Hit & Hx & _).
      destruct (Hhi w); [by left|].
      apply list_elem_of_fmap. exists x. split; [done|].
      by eapply list_elem_of_lookup_2.
    + apply IH; [|done..]. intros v Hv. apply Hhi. by right.
Qed.

Lemma DiscardRedundantExtensions_none_present
    (prio : list string) (l : list RtpExtension) :
  (∀ v, v ∈ prio → v ∉ uri <$> l) →
  DiscardRedundantExtensions l prio = l.
Proof.
  unfold DiscardRedundantExtensions.
  induction prio as [|w prio IH]; intros Hprio; simpl; [done|].
  destruct (list_find _ l) as [[it x]|] eqn:Hfind.
  - apply list_find_Some in Hfind as (Hit & Hx & _).
    destruct (Hprio w); [by left|].
    apply list_elem_of_fmap. exists x. split; [done|].
    by eapply list_elem_of_lookup_2.
  - apply IH. intros v Hv. apply Hprio. by right.
Qed.

(** Either no uri of the priority list is present, or the list splits at the
    first one that is. *)
Lemma first_present_split (prio : list string) (l : list RtpExtension) :
  (∀ v, v ∈ prio → v ∉ uri <$> l) ∨
  ∃ hi u lo, prio = hi ++ u :: lo ∧ (∀ v, v ∈ hi → v ∉ uri <$> l) ∧ u ∈ uri <$> l.
Proof.
  induction prio as [|w prio IH].
  { left. intros v Hv. by apply elem_of_nil in Hv. }
  destruct (decide (w ∈ uri <$> l)) as [Hw|Hw].
  { right. exists [], w, prio. split_and!; [done| |done].
    intros v Hv. by apply elem_of_nil in Hv. }
  destruct IH as [Hnone|(hi & u & lo & -> & Hhi & Hu)].
  - left. intros v [->|Hv]%elem_of_cons; auto.
  - right. exists (w :: hi), u, lo. split_and!; [done| |done].
    intros v [->|Hv]%elem_of_cons; auto.
Qed.

(** ** FilterRtpExtensions: shape of the result *)

Section FilterFacts.
Context `{RtpExtensionConstants}.

Lemma FilterRtpExtensions_sublist (keep_abs_send_time : bool)
    (extensions : list RtpExtension) (supported : string → bool)
    (filter_redundant_extensions : bool) :
  FilterRtpExtensions keep_abs_send_time extensions supported
    filter_redundant_extensions
  `sublist_of` c_sort sort_less (filter (λ e, supported (uri e)) extensions).
Proof.
  unfold FilterRtpExtensions. destruct filter_redundant_extensions; [|done].
  etransitivity; [apply DiscardRedundantExtensions_loop_sublist|].
  apply unique_sublist.
Qed.

Lemma FilterRtpExtensions_sorted_le (keep_abs_send_time : bool)
    (extensions : list RtpExtension) (supported : string → bool)
    (filter_redundant_extensions : bool) :
  StronglySorted sort_le
    (FilterRtpExtensions keep_abs_send_time extensions supported
       filter_redundant_extensions).
Proof.
  eapply StronglySorted_sublist; [apply FilterRtpExtensions_sublist|].
  apply c_sort_sorted.
Qed.

Lemma FilterRtpExtensions_submseteq (keep_abs_send_time : bool)
    (extensions : list RtpExtension) (supported : string → bool)
    (filter_redundant_extensions : bool) :
  FilterRtpExtensions keep_abs_send_time extensions supported
    filter_redundant_extensions
  ⊆+ filter (λ e, supported (uri e)) extensions.
Proof.
  rewrite <- (c_sort_perm (filter _ extensions)).
  apply sublist_submseteq, FilterRtpExtensions_sublist.
Qed.

Lemma FilterRtpExtensions_elem_of (keep_abs_send_time : bool)
    (extensions : list RtpExtension) (supported : string → bool)
    (filter_redundant_extensions : bool) (e : RtpExtension) :
  e ∈ FilterRtpExtensions keep_abs_send_time extensions supported
        filter_redundant_extensions →
  supported (uri e) ∧ e ∈ extensions.
Proof.
  intros He. apply (list_elem_of_filter (λ e, supported (uri e))).
  eapply elem_of_submseteq; [done|apply FilterRtpExtensions_submseteq].
Qed.

(** The result of the filter passes validation again. *)
Lemma FilterRtpExtensions_valid (keep_abs_send_time : bool)
    (extensions : list RtpExtension) (supported : string → bool)
    (filter_redundant_extensions : bool) :
  0 ≤ kMinId →
  ValidateRtpExtensions extensions = true →
  ValidateRtpExtensions
    (FilterRtpExtensions keep_abs_send_time extensions supported
       filter_redundant_extensions) = true.
Proof.
  intros Hmin. rewrite !ValidateRtpExtensions_true by done.
  intros [Hrange Hnd].
  pose proof (FilterRtpExtensions_submseteq keep_abs_send_time extensions
                supported filter_redundant_extensions) as Hsub.
  assert (Hsub' : FilterRtpExtensions keep_abs_send_time extensions supported
                    filter_redundant_extensions ⊆+ extensions).
  { etransitivity; [exact Hsub|]. apply sublist_submseteq, sublist_filter. }
  apply submseteq_Permutation in Hsub' as [k Hk].
  rewrite Hk in Hrange, Hnd. rewrite fmap_app in Hnd.
  split.
  - by apply Forall_app in Hrange as [? _].
  - by apply NoDup_app in Hnd as (? & _ & _).
Qed.

Lemma sort_le_canonical (a b : RtpExtension) :
  sort_le a b → canonical_order a b.
Proof.
  unfold sort_le, sort_less, canonical_order.
  destruct (encrypt a), (encrypt b); simpl; try done;
    intros Hle; (split; [done|]); intros _; by apply string_leb_ltb.
Qed.
End FilterFacts.

(** ** Validation *)

Lemma not_NoDup_lookup (l : list Z) :
  ¬ NoDup l → ∃ i j x, i ≠ j ∧ l !! i = Some x ∧ l !! j = Some x.
Proof.
  induction l as [|x l IH]; intros Hnd.
  { destruct Hnd. constructor. }
  destruct (decide (x ∈ l)) as [Hx|Hx].
  - apply list_elem_of_lookup in Hx as [j Hj].
    exists 0%nat, (S j), x. by split_and!.
  - destruct IH as (i & j & y & Hij & Hi & Hj).
    { intros Hl. apply Hnd. by constructor. }
    exists (S i), (S j), y. split_and!; [lia|done..].
Qed.

#[global] Instance id_in_range_dec `{RtpExtensionConstants} (e : RtpExtension) :
  Decision (id_in_range e).
Proof. unfold id_in_range. apply _. Defined.

(** C1.  [ValidateRtpExtensions] returns false exactly when some id lies
    outside [[kMinId, kMaxId]] or two entries of the list share an id, and
    true otherwise.  The ids index the array [id_used], hence [0 ≤ kMinId]. *)
Theorem ValidateRtpExtensions_correct `{RtpExtensionConstants}
    (extensions : list RtpExtension) :
  0 ≤ kMinId →
  let bad :=
    (∃ e, e ∈ extensions ∧ (id e < kMinId ∨ kMaxId < id e)) ∨
    (∃ i j a b, i ≠ j ∧ extensions !! i = Some a ∧ extensions !! j = Some b ∧
                id a = id b) in
  (ValidateRtpExtensions extensions = false ↔ bad) ∧
  (ValidateRtpExtensions extensions = true ↔ ¬ bad).
Proof.
  intros Hmin bad.
  assert (Hgood : ValidateRtpExtensions extensions = true ↔ ¬ bad).
  { rewrite ValidateRtpExtensions_true by done. unfold bad. split.
    - intros [Hrange Hnd] [(e & He & Hout)|(i & j & a & b & Hij & Hi & Hj & Hab)].
      + rewrite Forall_forall in Hrange. destruct (Hrange e He). lia.
      + apply Hij. eapply NoDup_lookup; [exact Hnd|..]; rewrite list_lookup_fmap.
        * by rewrite Hi.
        * rewrite Hj. simpl. by rewrite Hab.
    - intros Hbad. split.
      + apply Forall_forall. intros e He.
        destruct (decide (id_in_range e)) as [|Hout]; [done|].
        destruct Hbad. left. exists e. split; [done|].
        unfold id_in_range in Hout. lia.
      + destruct (decide (NoDup (id <$> extensions))) as [|Hdup]; [done|].
        destruct Hbad. right.
        apply not_NoDup_lookup in Hdup as (i & j & x & Hij & Hi & Hj).
        rewrite list_lookup_fmap in Hi, Hj.
        destruct (extensions !! i) as [a|] eqn:Ha; [|done].
        destruct (extensions !! j) as [b|] eqn:Hb; [|done].
        exists i, j, a, b. simplify_eq/=. by split_and!. }
  split; [|done]. split.
  - intros Hv. unfold bad.
    destruct (decide (Forall id_in_range extensions)) as [Hrange|Hrange].
    + right. destruct (decide (NoDup (id <$> extensions))) as [Hnd|Hdup].
      * assert (ValidateRtpExtensions extensions = true); [|congruence].
        by apply ValidateRtpExtensions_true.
      * apply not_NoDup_lookup in Hdup as (i & j & x & Hij & Hi & Hj).
        rewrite list_lookup_fmap in Hi, Hj.
        destruct (extensions !! i) as [a|] eqn:Ha; [|done].
        destruct (extensions !! j) as [b|] eqn:Hb; [|done].
        exists i, j, a, b. simplify_eq/=. by split_and!.
    + left. apply not_Forall_Exists in Hrange; [|apply _].
      apply Exists_exists in Hrange as (e & He & Hout).
      exists e. split; [done|]. unfold compose, id_in_range in Hout. lia.
  - intros Hbad. destruct (ValidateRtpExtensions extensions) eqn:Hv; [|done].
    by apply Hgood in Hbad.
Qed.

(** ** FilterRtpExtensions: the mutual-exclusion group *)

Lemma NoDup_uri_keys (l : list RtpExtension) :
  NoDup (uri <$> l) → NoDup (ext_key <$> l).
Proof.
  intros Hnd. apply (NoDup_fmap_1 snd).
  by rewrite <- list_fmap_compose.
Qed.

Lemma NoDup_uri_at_most_one (u : string) (l : list RtpExtension) :
  NoDup (uri <$> l) → at_most_one_uri u l.
Proof.
  intros Hnd i j a b Hi Hj Ha Hb.
  eapply NoDup_lookup; [exact Hnd|..]; rewrite list_lookup_fmap.
  - by rewrite Hi.
  - rewrite Hj. simpl. congruence.
Qed.

Section FilterGroup.
Context `{RtpExtensionConstants}.

(** With redundancy filtering the list handed to
    [DiscardRedundantExtensions] is strictly sorted. *)
Lemma unique_c_sort_sorted (l : list RtpExtension) :
  StronglySorted sort_lt (unique unique_pred (c_sort sort_less l)).
Proof. apply unique_sorted, c_sort_sorted. Qed.

Lemma FilterRtpExtensions_redundant_sorted (keep_abs_send_time : bool)
    (extensions : list RtpExtension) (supported : string → bool) :
  StronglySorted sort_lt
    (FilterRtpExtensions keep_abs_send_time extensions supported true).
Proof.
  eapply StronglySorted_sublist; [|apply unique_c_sort_sorted].
  apply DiscardRedundantExtensions_loop_sublist.
Qed.

(** A candidate list whose supported entries carry pairwise distinct uris:
    the filter sorts them and removes every uri ranked below the first uri of
    the priority list that is present. *)
Lemma FilterRtpExtensions_distinct_uris (keep_abs_send_time : bool)
    (extensions : list RtpExtension) (supported : string → bool)
    (hi : list string) (u : string) (lo : list string) :
  NoDup (uri <$> filter (λ e, supported (uri e)) extensions) →
  kBweExtensionPriorities keep_abs_send_time = hi ++ u :: lo →
  (∀ v, v ∈ hi → v ∉ uri <$> filter (λ e, supported (uri e)) extensions) →
  u ∈ uri <$> filter (λ e, supported (uri e)) extensions →
  FilterRtpExtensions keep_abs_send_time extensions supported true
  ≡ₚ filter (λ e, uri e ∉ lo) (filter (λ e, supported (uri e)) extensions).
Proof.
  intros Hnd Hprio Hhi Hu. unfold FilterRtpExtensions.
  set (F := filter (λ e, supported (uri e)) extensions) in *.
  assert (Hperm : c_sort sort_less F ≡ₚ F) by apply c_sort_perm.
  assert (Hnd' : NoDup (uri <$> c_sort sort_less F)) by by rewrite Hperm.
  rewrite unique_id by by apply NoDup_uri_keys.
  rewrite Hprio, DiscardRedundantExtensions_first_present.
  - by rewrite Hperm.
  - intros v Hv. rewrite Hperm. by apply Hhi.
  - by rewrite Hperm.
  - intros v _. by apply NoDup_uri_at_most_one.
Qed.
End FilterGroup.

(** ** The two concrete negotiations *)

(** C2.  The candidates transport-sequence-number (id 3), absolute-send-time
    (id 2) and timestamp-offset (id 1), with any encryption flags and in any
    order, all supported, field trial off, redundancy filtering on.  Alone
    they are reduced to the transport-sequence-number entry; next to other
    extensions, of uris outside the priority list and pairwise distinct as
    far as supported, the result is that entry together with the supported
    other extensions.  The three uris are pairwise distinct. *)
Theorem FilterRtpExtensions_priority_trial_off `{RtpExtensionConstants}
    (extensions others : list RtpExtension) (supported : string → bool)
    (enc_tsn enc_abs enc_toff : bool) :
  NoDup [kTransportSequenceNumberUri; kAbsSendTimeUri; kTimestampOffsetUri] →
  supported kTransportSequenceNumberUri = true →
  supported kAbsSendTimeUri = true →
  supported kTimestampOffsetUri = true →
  extensions ≡ₚ [mkRtpExtension kTransportSequenceNumberUri 3 enc_tsn;
                 mkRtpExtension kAbsSendTimeUri 2 enc_abs;
                 mkRtpExtension kTimestampOffsetUri 1 enc_toff] ++ others →
  Forall (λ e, uri e ∉ kBweExtensionPriorities false) others →
  NoDup (uri <$> filter (λ e, supported (uri e)) others) →
  ValidateRtpExtensions extensions = true →
  FilterRtpExtensions false extensions supported true
  ≡ₚ mkRtpExtension kTransportSequenceNumberUri 3 enc_tsn
     :: filter (λ e, supported (uri e)) others ∧
  (others = [] →
   FilterRtpExtensions false extensions supported true
   = [mkRtpExtension kTransportSequenceNumberUri 3 enc_tsn]).
Proof.
  intros Hdist Htsn Habs Htoff Hperm Hout Hnd _.
  set (tsn := mkRtpExtension kTransportSequenceNumberUri 3 enc_tsn) in *.
  set (abs := mkRtpExtension kAbsSendTimeUri 2 enc_abs) in *.
  set (toff := mkRtpExtension kTimestampOffsetUri 1 enc_toff) in *.
  set (O := filter (λ e, supported (uri e)) others) in *.
  assert (HO : Forall (λ e, uri e ∉ kBweExtensionPriorities false) O).
  { apply Forall_forall. intros e [_ He]%list_elem_of_filter.
    rewrite Forall_forall in Hout. by apply Hout. }
  assert (HF : filter (λ e, supported (uri e)) extensions ≡ₚ [tsn; abs; toff] ++ O).
  { rewrite Hperm, filter_app. f_equiv; [|done]. apply reflexive_eq, filter_all.
    repeat constructor; simpl; by rewrite ?Htsn, ?Habs, ?Htoff. }
  assert (Hres : FilterRtpExtensions false extensions supported true ≡ₚ tsn :: O).
  { rewrite (FilterRtpExtensions_distinct_uris false extensions supported
               [] kTransportSequenceNumberUri
               [kAbsSendTimeUri; kTimestampOffsetUri]).
    - rewrite HF, filter_app. pose proof Hdist as [Hn1 _]%NoDup_cons.
      rewrite filter_cons_True by done.
      rewrite filter_cons_False by (simpl; intros []; set_solver).
      rewrite filter_cons_False by (simpl; intros []; set_solver).
      rewrite filter_nil. simpl. f_equiv. apply reflexive_eq, filter_all.
      eapply Forall_impl; [exact HO|]. simpl. intros e He Hin. apply He.
      by right.
    - rewrite HF, fmap_app. apply NoDup_app. split_and!; [done| |done].
      intros u Hu (e & -> & He)%list_elem_of_fmap.
      rewrite Forall_forall in HO. by apply (HO e He).
    - done.
    - intros v Hv. by apply elem_of_nil in Hv.
    - rewrite HF. simpl. by left. }
  split; [done|]. intros ->. by apply Permutation_singleton_r.
Qed.

(** C3.  The same candidates with the field trial on: transport-sequence-number
    is outside the priority list and stays, timestamp-offset yields to
    absolute-send-time; the result holds exactly the transport-sequence-number
    and the absolute-send-time entries. *)
Theorem FilterRtpExtensions_priority_trial_on `{RtpExtensionConstants}
    (extensions : list RtpExtension) (supported : string → bool)
    (enc_tsn enc_abs enc_toff : bool) :
  NoDup [kTransportSequenceNumberUri; kAbsSendTimeUri; kTimestampOffsetUri] →
  supported kTransportSequenceNumberUri = true →
  supported kAbsSendTimeUri = true →
  supported kTimestampOffsetUri = true →
  extensions ≡ₚ [mkRtpExtension kTransportSequenceNumberUri 3 enc_tsn;
                 mkRtpExtension kAbsSendTimeUri 2 enc_abs;
                 mkRtpExtension kTimestampOffsetUri 1 enc_toff] →
  ValidateRtpExtensions extensions = true →
  FilterRtpExtensions true extensions supported true
  ≡ₚ [mkRtpExtension kTransportSequenceNumberUri 3 enc_tsn;
      mkRtpExtension kAbsSendTimeUri 2 enc_abs].
Proof.
  intros Hdist Htsn Habs Htoff Hperm _.
  assert (HF : filter (λ e, supported (uri e)) extensions = extensions).
  { apply filter_all. rewrite Hperm.
    repeat constructor; simpl; by rewrite ?Htsn, ?Habs, ?Htoff. }
  pose proof Hdist as Hdist'.
  apply NoDup_cons in Hdist' as [Hn1 [Hn2 _]%NoDup_cons].
  rewrite (FilterRtpExtensions_distinct_uris true extensions supported
             [] kAbsSendTimeUri [kTimestampOffsetUri]).
  - rewrite HF, Hperm.
    rewrite filter_cons_True by (simpl; intros Hin; apply Hn1; by right).
    rewrite filter_cons_True by done.
    rewrite filter_cons_False by (simpl; intros []; set_solver).
    done.
  - by rewrite HF, Hperm.
  - done.
  - intros v Hv. by apply elem_of_nil in Hv.
  - rewrite HF, Hperm. simpl. set_solver.
Qed.

(** ** Canonical order *)

Lemma StronglySorted_weaken {A} (R1 R2 : relation A) (l : list A) :
  (∀ x y, R1 x y → R2 x y) → StronglySorted R1 l → StronglySorted R2 l.
Proof.
  intros HR. induction 1 as [|x l Hl IH Hx]; constructor; [done|].
  eapply Forall_impl; [exact Hx|]. auto.
Qed.

(** C7.  The list returned for a valid input is in canonical order, for
    either value of the redundancy flag: every entry stands in
    [canonical_order] to every later entry. *)
Theorem FilterRtpExtensions_canonical_order `{RtpExtensionConstants}
    (keep_abs_send_time : bool) (extensions : list RtpExtension)
    (supported : string → bool) (filter_redundant_extensions : bool) :
  ValidateRtpExtensions extensions = true →
  StronglySorted canonical_order
    (FilterRtpExtensions keep_abs_send_time extensions supported
       filter_redundant_extensions).
Proof.
  intros _. eapply StronglySorted_weaken; [apply sort_le_canonical|].
  apply FilterRtpExtensions_sorted_le.
Qed.

(** ** Dependence on the input order *)

Lemma ext_key_of_key (e : RtpExtension) : ext_key (of_key (ext_key e)) = ext_key e.
Proof. done. Qed.

Lemma sort_le_key_le (x y : RtpExtension) :
  sort_le x y → key_le (ext_key x) (ext_key y).
Proof.
  unfold key_le, sort_le. intros Hle.
  by rewrite <- (sort_less_key y x).
Qed.

(** The keys of the sorted list do not depend on the input order. *)
Lemma c_sort_keys_perm (l l' : list RtpExtension) :
  l ≡ₚ l' →
  ext_key <$> c_sort sort_less l = ext_key <$> c_sort sort_less l'.
Proof.
  intros Hperm. apply (StronglySorted_unique_strong key_le).
  - intros [e1 u1] [e2 u2] _ _ H12 H21.
    by apply (sort_less_connex (of_key (e1, u1)) (of_key (e2, u2))).
  - eapply StronglySorted_fmap; [apply sort_le_key_le|apply c_sort_sorted].
  - eapply StronglySorted_fmap; [apply sort_le_key_le|apply c_sort_sorted].
  - by rewrite !c_sort_perm, Hperm.
Qed.

Lemma fmap_cons_eq_inv {A B} (f : A → B) (x x' : A) (l l' : list A) :
  f <$> x :: l = f <$> x' :: l' → f x = f x' ∧ f <$> l = f <$> l'.
Proof. csimpl. intros Heq. by injection Heq. Qed.

Lemma unique_pred_ext (x y x' y' : RtpExtension) :
  ext_key x = ext_key x' → ext_key y = ext_key y' →
  unique_pred x y = unique_pred x' y'.
Proof. unfold ext_key, unique_pred. by intros [= -> ->] [= -> ->]. Qed.

Lemma unique_from_keys (l l' : list RtpExtension) (kept kept' : RtpExtension) :
  ext_key kept = ext_key kept' →
  ext_key <$> l = ext_key <$> l' →
  ext_key <$> unique_from unique_pred kept l
  = ext_key <$> unique_from unique_pred kept' l'.
Proof.
  revert l' kept kept'.
  induction l as [|x l IH]; intros [|x' l'] kept kept' Hk Hl; try done.
  apply fmap_cons_eq_inv in Hl as [Hx Hl]. simpl.
  rewrite (unique_pred_ext kept x kept' x') by done.
  destruct (unique_pred kept' x'); [by apply IH|].
  csimpl. f_equal; [done|]. by apply IH.
Qed.

Lemma unique_keys (l l' : list RtpExtension) :
  ext_key <$> l = ext_key <$> l' →
  ext_key <$> unique unique_pred l = ext_key <$> unique unique_pred l'.
Proof.
  destruct l as [|x l], l' as [|x' l']; try done.
  intros [Hx Hl]%fmap_cons_eq_inv. csimpl. f_equal; [done|].
  by apply unique_from_keys.
Qed.

Lemma list_find_keys (u : string) (l l' : list RtpExtension) :
  ext_key <$> l = ext_key <$> l' →
  fst <$> list_find (λ rhs, uri rhs = u) l
  = fst <$> list_find (λ rhs, uri rhs = u) l'.
Proof.
  revert l'. induction l as [|x l IH]; intros [|x' l'] Hl; try done.
  apply fmap_cons_eq_inv in Hl as [Hx Hl]. cbn.
  assert (Huri : uri x = uri x') by (unfold ext_key in Hx; congruence).
  rewrite <- Huri. destruct (decide (uri x = u)); [done|].
  specialize (IH l' Hl).
  destruct (list_find _ l) as [[]|], (list_find _ l') as [[]|];
    simplify_eq/=; done.
Qed.

Lemma DiscardRedundantExtensions_loop_keys
    (prio : list string) (found : bool) (l l' : list RtpExtension) :
  ext_key <$> l = ext_key <$> l' →
  ext_key <$> DiscardRedundantExtensions_loop found prio l
  = ext_key <$> DiscardRedundantExtensions_loop found prio l'.
Proof.
  revert found l l'. induction prio as [|u prio IH]; intros found l l' Hl; [done|].
  simpl. pose proof (list_find_keys u l l' Hl) as Hfind.
  destruct (list_find _ l) as [[it x]|], (list_find _ l') as [[it' x']|];
    simplify_eq/=; [|by apply IH].
  apply IH. destruct found; [|done].
  by rewrite !list_fmap_delete, Hl.
Qed.

Section FilterOrder.
Context `{RtpExtensionConstants}.

Lemma FilterRtpExtensions_keys_perm (keep_abs_send_time : bool)
    (extensions extensions' : list RtpExtension) (supported : string → bool)
    (filter_redundant_extensions : bool) :
  extensions' ≡ₚ extensions →
  ext_key <$> FilterRtpExtensions keep_abs_send_time extensions' supported
                filter_redundant_extensions
  = ext_key <$> FilterRtpExtensions keep_abs_send_time extensions supported
                  filter_redundant_extensions.
Proof.
  intros Hperm. unfold FilterRtpExtensions.
  assert (Hsort :
    ext_key <$> c_sort sort_less (filter (λ e, supported (uri e)) extensions')
    = ext_key <$> c_sort sort_less (filter (λ e, supported (uri e)) extensions)).
  { apply c_sort_keys_perm. by rewrite Hperm. }
  destruct filter_redundant_extensions; [|done].
  by apply DiscardRedundantExtensions_loop_keys, unique_keys.
Qed.

Lemma FilterRtpExtensions_perm_distinct_keys (keep_abs_send_time : bool)
    (extensions extensions' : list RtpExtension) (supported : string → bool)
    (filter_redundant_extensions : bool) :
  extensions' ≡ₚ extensions →
  NoDup (ext_key <$> filter (λ e, supported (uri e)) extensions) →
  FilterRtpExtensions keep_abs_send_time extensions' supported
    filter_redundant_extensions
  = FilterRtpExtensions keep_abs_send_time extensions supported
      filter_redundant_extensions.
Proof.
  intros Hperm Hnd. unfold FilterRtpExtensions.
  assert (Hsort :
    c_sort sort_less (filter (λ e, supported (uri e)) extensions')
    = c_sort sort_less (filter (λ e, supported (uri e)) extensions)).
  { apply sorted_perm_unique; [|apply c_sort_sorted..|].
    - by rewrite c_sort_perm, Hperm.
    - by rewrite !c_sort_perm, Hperm. }
  by rewrite Hsort.
Qed.
End FilterOrder.

(** C4, as the code has it.  For a valid input and any reordering of it, the
    sequence of [(encrypt, uri)] keys of the result is the same; and when no
    two supported candidates share a key, the result itself is the same. *)
Theorem FilterRtpExtensions_order_independent `{RtpExtensionConstants}
    (keep_abs_send_time : bool) (extensions extensions' : list RtpExtension)
    (supported : string → bool) (filter_redundant_extensions : bool) :
  ValidateRtpExtensions extensions = true →
  extensions' ≡ₚ extensions →
  ext_key <$> FilterRtpExtensions keep_abs_send_time extensions' supported
                filter_redundant_extensions
  = ext_key <$> FilterRtpExtensions keep_abs_send_time extensions supported
                  filter_redundant_extensions ∧
  (NoDup (ext_key <$> filter (λ e, supported (uri e)) extensions) →
   FilterRtpExtensions keep_abs_send_time extensions' supported
     filter_redundant_extensions
   = FilterRtpExtensions keep_abs_send_time extensions supported
       filter_redundant_extensions).
Proof.
  intros _ Hperm. split.
  - by apply FilterRtpExtensions_keys_perm.
  - by apply FilterRtpExtensions_perm_distinct_keys.
Qed.

(** ** The mutual-exclusion group in the result *)

Section FilterGroupResult.
Context `{RtpExtensionConstants}.

(** The list handed to [DiscardRedundantExtensions] repeats no key, and its
    entries are supported candidates. *)
Lemma unique_c_sort_NoDup_keys (l : list RtpExtension) :
  NoDup (ext_key <$> unique unique_pred (c_sort sort_less l)).
Proof. apply sort_lt_sorted_NoDup_keys, unique_c_sort_sorted. Qed.

Lemma unique_c_sort_elem_of (l : list RtpExtension) (e : RtpExtension) :
  e ∈ unique unique_pred (c_sort sort_less l) → e ∈ l.
Proof.
  intros He. rewrite <- (c_sort_perm l).
  eapply elem_of_sublist; [done|apply unique_sublist].
Qed.

(** Under [outranked_in_one_form] the call of [DiscardRedundantExtensions]
    removes every uri ranked below the first uri present. *)
Lemma FilterRtpExtensions_first_present (keep_abs_send_time : bool)
    (extensions : list RtpExtension) (supported : string → bool)
    (hi : list string) (u : string) (lo : list string) :
  let R0 := unique unique_pred
              (c_sort sort_less (filter (λ e, supported (uri e)) extensions)) in
  outranked_in_one_form keep_abs_send_time extensions supported →
  kBweExtensionPriorities keep_abs_send_time = hi ++ u :: lo →
  (∀ v, v ∈ hi → v ∉ uri <$> R0) →
  u ∈ uri <$> R0 →
  FilterRtpExtensions keep_abs_send_time extensions supported true
  = filter (λ e, uri e ∉ lo) R0.
Proof.
  intros R0 Hform Hprio Hhi Hu. unfold FilterRtpExtensions. fold R0.
  assert (HR0 : ∀ e, e ∈ R0 → supported (uri e) ∧ e ∈ extensions).
  { intros e He. apply (list_elem_of_filter (λ e, supported (uri e))).
    by apply unique_c_sort_elem_of. }
  rewrite Hprio. apply DiscardRedundantExtensions_first_present; [done..|].
  intros v Hv i j x y Hi Hj Hx Hy.
  apply list_elem_of_fmap in Hu as (c & -> & Hc).
  destruct (HR0 c Hc) as [Hcs Hcin].
  destruct (HR0 x) as [Hxs Hxin]; [by eapply list_elem_of_lookup_2|].
  destruct (HR0 y) as [Hys Hyin]; [by eapply list_elem_of_lookup_2|].
  assert (Henc : encrypt x = encrypt y).
  { eapply (Hform hi (uri c) lo Hprio); [by exists c|done..| |]; congruence. }
  eapply NoDup_lookup; [apply (unique_c_sort_NoDup_keys
    (filter (λ e, supported (uri e)) extensions))|..];
    rewrite list_lookup_fmap.
  - fold R0. by rewrite Hi.
  - fold R0. rewrite Hj. unfold ext_key. simpl. congruence.
Qed.

(** Hence every entry of the result whose uri is in the priority list
    carries the first uri of that list that is present. *)
Lemma FilterRtpExtensions_group_uri (keep_abs_send_time : bool)
    (extensions : list RtpExtension) (supported : string → bool)
    (a b : RtpExtension) :
  outranked_in_one_form keep_abs_send_time extensions supported →
  a ∈ group_entries (kBweExtensionPriorities keep_abs_send_time)
        (FilterRtpExtensions keep_abs_send_time extensions supported true) →
  b ∈ group_entries (kBweExtensionPriorities keep_abs_send_time)
        (FilterRtpExtensions keep_abs_send_time extensions supported true) →
  uri a = uri b.
Proof.
  intros Hform. unfold group_entries.
  set (R0 := unique unique_pred
               (c_sort sort_less (filter (λ e, supported (uri e)) extensions))).
  destruct (first_present_split (kBweExtensionPriorities keep_abs_send_time) R0)
    as [Hnone|(hi & u & lo & Hprio & Hhi & Hu)].
  - unfold FilterRtpExtensions. fold R0.
    rewrite DiscardRedundantExtensions_none_present by done.
    intros [Ha Hin]%list_elem_of_filter _.
    destruct (Hnone (uri a) Ha). apply list_elem_of_fmap. by exists a.
  - rewrite (FilterRtpExtensions_first_present _ _ _ hi u lo) by done.
    fold R0. rewrite Hprio.
    assert (Huri : ∀ e, e ∈ filter (λ e, uri e ∈ hi ++ u :: lo)
                            (filter (λ e, uri e ∉ lo) R0) → uri e = u).
    { intros e [Hg [Hlo He]%list_elem_of_filter]%list_elem_of_filter.
      apply elem_of_app in Hg as [Hg|Hg].
      - destruct (Hhi (uri e) Hg). apply list_elem_of_fmap. by exists e.
      - by apply elem_of_cons in Hg as [Hg|Hg]. }
    intros Ha Hb. by rewrite (Huri a), (Huri b).
Qed.

(** And a second pass over the result changes nothing. *)
Lemma FilterRtpExtensions_idempotent_one_form (keep_abs_send_time : bool)
    (extensions : list RtpExtension) (supported : string → bool) :
  outranked_in_one_form keep_abs_send_time extensions supported →
  FilterRtpExtensions keep_abs_send_time
    (FilterRtpExtensions keep_abs_send_time extensions supported true)
    supported true
  = FilterRtpExtensions keep_abs_send_time extensions supported true.
Proof.
  intros Hform.
  set (R := FilterRtpExtensions keep_abs_send_time extensions supported true).
  assert (Hsorted : StronglySorted sort_lt R)
    by apply FilterRtpExtensions_redundant_sorted.
  assert (Hsupp : Forall (λ e, supported (uri e)) R).
  { apply Forall_forall. intros e He.
    by apply FilterRtpExtensions_elem_of in He as [? _]. }
  unfold FilterRtpExtensions at 1. fold R.
  rewrite (filter_all _ R Hsupp).
  rewrite c_sort_id by by apply sort_lt_sorted_le.
  rewrite unique_id by by apply sort_lt_sorted_NoDup_keys.
  set (R0 := unique unique_pred
               (c_sort sort_less (filter (λ e, supported (uri e)) extensions))).
  destruct (first_present_split (kBweExtensionPriorities keep_abs_send_time) R0)
    as [Hnone|(hi & u & lo & Hprio & Hhi & Hu)].
  { assert (HR : R = R0).
    { unfold R, FilterRtpExtensions. fold R0.
      by apply DiscardRedundantExtensions_none_present. }
    rewrite HR. by apply DiscardRedundantExtensions_none_present. }
  assert (HR : R = filter (λ e, uri e ∉ lo) R0)
    by by apply (FilterRtpExtensions_first_present _ _ _ hi u lo).
  assert (Hlo : ∀ e, e ∈ R → uri e ∉ lo).
  { intros e. rewrite HR. by intros [? _]%list_elem_of_filter. }
  assert (Hhi' : ∀ v, v ∈ hi → v ∉ uri <$> R).
  { intros v Hv (e & -> & He)%list_elem_of_fmap. apply (Hhi (uri e) Hv).
    apply list_elem_of_fmap. exists e. split; [done|].
    rewrite HR in He. by apply list_elem_of_filter in He as [_ ?]. }
  rewrite Hprio. destruct (decide (u ∈ lo)) as [Hin|Hout].
  - apply DiscardRedundantExtensions_none_present.
    intros v Hv (e & -> & He)%list_elem_of_fmap.
    apply elem_of_app in Hv as [Hv|[Heq|Hv]%elem_of_cons].
    + apply (Hhi' (uri e) Hv). apply list_elem_of_fmap. by exists e.
    + apply (Hlo e He). by rewrite Heq.
    + by apply (Hlo e).
  - rewrite DiscardRedundantExtensions_first_present; [|done| |].
    + apply filter_all, Forall_forall. intros e He. by apply Hlo.
    + apply list_elem_of_fmap in Hu as (c & -> & Hc).
      apply list_elem_of_fmap. exists c. split; [done|].
      rewrite HR. by apply list_elem_of_filter.
    + intros v Hv i j a b Hi Hj Ha Hb.
      destruct (Hlo a); [by eapply list_elem_of_lookup_2|by rewrite Ha].
Qed.
End FilterGroupResult.

(** ** GetBitrateConfigForCodec *)

Lemma int_wrap_fits (z : Z) : - 2 ^ 31 ≤ z < 2 ^ 31 → int_wrap z = z.
Proof. intros Hz. unfold int_wrap. rewrite Z.mod_small; lia. Qed.

Lemma scaled_field (default : Z) (param : option Z) :
  product_fits_int param →
  match param with
  | Some bitrate_kbps =>
      if bitrate_kbps >? 0 then int_mul bitrate_kbps 1000 else default
  | None => default
  end = scaled_or default param.
Proof.
  destruct param as [v|]; simpl; [|done]. intros Hfit.
  destruct (v >? 0) eqn:Hpos; [|done].
  apply Z.gtb_lt in Hpos. unfold int_mul.
  rewrite int_wrap_fits by lia. lia.
Qed.

(** C10, as the code has it.  Each field of the returned constraints is 1000
    times its codec parameter when the parameter is present, strictly
    positive and at most 2147483 (the product fits an [int]); it is the
    default, 0 for the minimum and -1 for start and maximum, when the
    parameter is absent or not positive. *)
Theorem GetBitrateConfigForCodec_fields {Codec : Type} `{CodecInterface Codec}
    (codec : Codec) :
  (product_fits_int (GetParam codec kCodecParamMinBitrate) →
   min_bitrate_bps (GetBitrateConfigForCodec codec)
   = scaled_or 0 (GetParam codec kCodecParamMinBitrate)) ∧
  (product_fits_int (GetParam codec kCodecParamStartBitrate) →
   start_bitrate_bps (GetBitrateConfigForCodec codec)
   = scaled_or (-1) (GetParam codec kCodecParamStartBitrate)) ∧
  (product_fits_int (GetParam codec kCodecParamMaxBitrate) →
   max_bitrate_bps (GetBitrateConfigForCodec codec)
   = scaled_or (-1) (GetParam codec kCodecParamMaxBitrate)).
Proof. split_and!; intros Hfit; by apply scaled_field. Qed.

(** ** Acknowledged bitrate tracker *)

(** An idle tracker forwards a batch as [Update] calls and stays idle. *)
Lemma IncomingPacketFeedbackVector_idle
    (batch : list (PacketFeedback * bool)) (m : MockBitrateEstimator) :
  IncomingPacketFeedbackVector (mkAcknowledgedBitrateEstimator m None) batch
  = mkAcknowledgedBitrateEstimator
      (mkMockBitrateEstimator (calls m ++ update_calls batch) (return_value m))
      None.
Proof.
  unfold IncomingPacketFeedbackVector. revert m.
  induction batch as [|[packet in_alr] batch IH]; intros m; simpl.
  { rewrite app_nil_r. by destruct m. }
  rewrite IH. simpl. by rewrite <- app_assoc.
Qed.

Lemma IncomingPacketFeedbackVector_idle_batches
    (batches : list (list (PacketFeedback * bool))) (m : MockBitrateEstimator) :
  foldl IncomingPacketFeedbackVector (mkAcknowledgedBitrateEstimator m None)
    batches
  = mkAcknowledgedBitrateEstimator
      (mkMockBitrateEstimator (calls m ++ update_calls (concat batches))
         (return_value m))
      None.
Proof.
  revert m. induction batches as [|batch batches IH]; intros m; simpl.
  { rewrite app_nil_r. by destruct m. }
  rewrite IncomingPacketFeedbackVector_idle, IH. simpl.
  unfold update_calls. by rewrite fmap_app, app_assoc.
Qed.

Lemma IncomingPacketFeedbackVector_app
    (s : AcknowledgedBitrateEstimator MockBitrateEstimator)
    (batch1 batch2 : list (PacketFeedback * bool)) :
  IncomingPacketFeedbackVector s (batch1 ++ batch2)
  = IncomingPacketFeedbackVector (IncomingPacketFeedbackVector s batch1) batch2.
Proof. apply foldl_app. Qed.

(** C9.  An idle tracker that processes two records received at 10 and 20
    calls [Update] exactly twice, in batch order and with each record's
    receive time, payload size and [in_alr] flag, and never calls
    [ExpectFastRateChange]; it stays idle.  The calls are those added to
    whatever the estimator [m] had received before. *)
Theorem IncomingPacketFeedbackVector_UpdateBandwidth
    (m : MockBitrateEstimator) (seq1 send1 size1 seq2 send2 size2 : Z)
    (in_alr1 in_alr2 : bool) :
  IncomingPacketFeedbackVector (CreateTracker m)
    [(mkPacketFeedback seq1 send1 10 size1, in_alr1);
     (mkPacketFeedback seq2 send2 20 size2, in_alr2)]
  = mkAcknowledgedBitrateEstimator
      (mkMockBitrateEstimator
         (calls m ++ [CallUpdate 10 size1 in_alr1; CallUpdate 20 size2 in_alr2])
         (return_value m))
      None.
Proof.
  unfold CreateTracker. rewrite IncomingPacketFeedbackVector_idle.
  reflexivity.
Qed.

(** C8.  With the marker armed at 11, the records received at 10 and 20
    produce [Update], then [ExpectFastRateChange] directly followed by
    [Update]; the marker is then cleared, and whatever follows in the same
    batch or in later batches yields [Update] calls only: without a new
    [SetAlrEndedTime] there is no second [ExpectFastRateChange]. *)
Theorem IncomingPacketFeedbackVector_ExpectFastRateChangeWhenLeftAlr
    (m : MockBitrateEstimator) (seq1 send1 size1 seq2 send2 size2 : Z)
    (in_alr1 in_alr2 : bool)
    (rest : list (PacketFeedback * bool))
    (later : list (list (PacketFeedback * bool))) :
  let s0 := SetAlrEndedTime 11 (CreateTracker m) in
  let s1 :=
    IncomingPacketFeedbackVector s0
      ([(mkPacketFeedback seq1 send1 10 size1, in_alr1);
        (mkPacketFeedback seq2 send2 20 size2, in_alr2)] ++ rest) in
  let s2 := foldl IncomingPacketFeedbackVector s1 later in
  calls (bitrate_estimator s1)
  = calls m ++ [CallUpdate 10 size1 in_alr1; CallExpectFastRateChange;
                CallUpdate 20 size2 in_alr2] ++ update_calls rest ∧
  alr_ended_time s1 = None ∧
  calls (bitrate_estimator s2)
  = calls (bitrate_estimator s1) ++ update_calls (concat later) ∧
  alr_ended_time s2 = None.
Proof.
  intros s0 s1 s2.
  assert (Hs1 : s1 = mkAcknowledgedBitrateEstimator
            (mkMockBitrateEstimator
               (calls m ++ [CallUpdate 10 size1 in_alr1; CallExpectFastRateChange;
                            CallUpdate 20 size2 in_alr2] ++ update_calls rest)
               (return_value m))
            None).
  { unfold s1. rewrite IncomingPacketFeedbackVector_app.
    change (IncomingPacketFeedbackVector s0 _) with
      (mkAcknowledgedBitrateEstimator
         (mkMockBitrateEstimator
            (((calls m ++ [CallUpdate 10 size1 in_alr1])
              ++ [CallExpectFastRateChange]) ++ [CallUpdate 20 size2 in_alr2])
            (return_value m)) None).
    rewrite IncomingPacketFeedbackVector_idle. simpl.
    by rewrite <- !app_assoc. }
  unfold s2. rewrite Hs1, IncomingPacketFeedbackVector_idle_batches.
  by split_and!.
Qed.

(** The three tests of [acknowledged_bitrate_estimator_unittest.cc], run on
    the model: the calls the mock expects are the calls it records. *)
Example UpdateBandwidth_calls :
  calls (bitrate_estimator
           (IncomingPacketFeedbackVector
              (CreateTracker (mkMockBitrateEstimator [] None))
              CreateFeedbackVector))
  = [CallUpdate 10 10 false; CallUpdate 20 20 false].
Proof. reflexivity. Qed.

Example ExpectFastRateChangeWhenLeftAlr_calls :
  calls (bitrate_estimator
           (IncomingPacketFeedbackVector
              (SetAlrEndedTime (kFirstArrivalTimeMs + 1)
                 (CreateTracker (mkMockBitrateEstimator [] None)))
              CreateFeedbackVector))
  = [CallUpdate 10 10 false; CallExpectFastRateChange; CallUpdate 20 20 false].
Proof. reflexivity. Qed.

Example ReturnBitrate_value :
  tracker_bitrate (CreateTracker (mkMockBitrateEstimator [] (Some 42)))
  = Some 42.
Proof. reflexivity. Qed.

(** ** The definitions at the shipped constants *)

Section Shipped.
#[local] Existing Instance webrtc_constants.
#[local] Existing Instance param_list_codec.

Lemma shipped_uris_distinct :
  NoDup [kTransportSequenceNumberUri; kAbsSendTimeUri; kTimestampOffsetUri].
Proof. by apply (bool_decide_unpack _). Qed.

Lemma ValidateRtpExtensions_correct_witness :
  0 ≤ kMinId ∧
  let extensions := [mkRtpExtension kAbsSendTimeUri 2 false;
                     mkRtpExtension kTimestampOffsetUri 2 false] in
  let bad :=
    (∃ e, e ∈ extensions ∧ (id e < kMinId ∨ kMaxId < id e)) ∨
    (∃ i j a b, i ≠ j ∧ extensions !! i = Some a ∧ extensions !! j = Some b ∧
                id a = id b) in
  (ValidateRtpExtensions extensions = false ↔ bad) ∧
  (ValidateRtpExtensions extensions = true ↔ ¬ bad).
Proof.
  split; [simpl; lia|].
  apply (ValidateRtpExtensions_correct
           [mkRtpExtension kAbsSendTimeUri 2 false;
            mkRtpExtension kTimestampOffsetUri 2 false]).
  simpl; lia.
Defined.

Lemma FilterRtpExtensions_priority_trial_off_witness :
  let audio_level :=
    mkRtpExtension "urn:ietf:params:rtp-hdrext:ssrc-audio-level" 4 false in
  FilterRtpExtensions false
    [mkRtpExtension kTransportSequenceNumberUri 3 false;
     mkRtpExtension kAbsSendTimeUri 2 false;
     mkRtpExtension kTimestampOffsetUri 1 false; audio_level]
    all_supported true
  ≡ₚ [mkRtpExtension kTransportSequenceNumberUri 3 false; audio_level] ∧
  FilterRtpExtensions false
    [mkRtpExtension kTransportSequenceNumberUri 3 false;
     mkRtpExtension kAbsSendTimeUri 2 false;
     mkRtpExtension kTimestampOffsetUri 1 false] all_supported true
  = [mkRtpExtension kTransportSequenceNumberUri 3 false].
Proof.
  intros audio_level. split.
  - apply (FilterRtpExtensions_priority_trial_off _ [audio_level] all_supported
             false false false).
    + exact shipped_uris_distinct.
    + reflexivity.
    + reflexivity.
    + reflexivity.
    + reflexivity.
    + by apply (bool_decide_unpack _).
    + by apply (bool_decide_unpack _).
    + reflexivity.
  - apply (FilterRtpExtensions_priority_trial_off _ [] all_supported
             false false false).
    + exact shipped_uris_distinct.
    + reflexivity.
    + reflexivity.
    + reflexivity.
    + reflexivity.
    + constructor.
    + constructor.
    + reflexivity.
    + reflexivity.
Defined.

Lemma FilterRtpExtensions_priority_trial_on_witness :
  FilterRtpExtensions true
    [mkRtpExtension kTransportSequenceNumberUri 3 false;
     mkRtpExtension kAbsSendTimeUri 2 false;
     mkRtpExtension kTimestampOffsetUri 1 false] all_supported true
  ≡ₚ [mkRtpExtension kTransportSequenceNumberUri 3 false;
      mkRtpExtension kAbsSendTimeUri 2 false].
Proof.
  apply (FilterRtpExtensions_priority_trial_on _ all_supported false false false).
  - exact shipped_uris_distinct.
  - reflexivity.
  - reflexivity.
  - reflexivity.
  - reflexivity.
  - reflexivity.
Defined.

(** At the shipped uris the list of C3 comes out in this order. *)
Example FilterRtpExtensions_trial_on_shipped :
  FilterRtpExtensions true
    [mkRtpExtension kTransportSequenceNumberUri 3 false;
     mkRtpExtension kAbsSendTimeUri 2 false;
     mkRtpExtension kTimestampOffsetUri 1 false] all_supported true
  = [mkRtpExtension kTransportSequenceNumberUri 3 false;
     mkRtpExtension kAbsSendTimeUri 2 false].
Proof. vm_compute. reflexivity. Qed.

Lemma FilterRtpExtensions_canonical_order_witness :
  ValidateRtpExtensions
    [mkRtpExtension kTimestampOffsetUri 1 false;
     mkRtpExtension kAbsSendTimeUri 2 false;
     mkRtpExtension kAbsSendTimeUri 3 true] = true ∧
  StronglySorted canonical_order
    (FilterRtpExtensions false
       [mkRtpExtension kTimestampOffsetUri 1 false;
        mkRtpExtension kAbsSendTimeUri 2 false;
        mkRtpExtension kAbsSendTimeUri 3 true] all_supported false).
Proof.
  split; [reflexivity|].
  apply FilterRtpExtensions_canonical_order. reflexivity.
Defined.

(** C4 fails as stated: two valid lists that are reorderings of each other,
    with one uri under two ids, are filtered to different results. *)
Lemma FilterRtpExtensions_order_counterexample :
  let extensions := [mkRtpExtension kAbsSendTimeUri 1 false;
                     mkRtpExtension kAbsSendTimeUri 2 false] in
  let extensions' := [mkRtpExtension kAbsSendTimeUri 2 false;
                      mkRtpExtension kAbsSendTimeUri 1 false] in
  ValidateRtpExtensions extensions = true ∧
  extensions' ≡ₚ extensions ∧
  FilterRtpExtensions false extensions all_supported true
  = [mkRtpExtension kAbsSendTimeUri 1 false] ∧
  FilterRtpExtensions false extensions' all_supported true
  = [mkRtpExtension kAbsSendTimeUri 2 false] ∧
  FilterRtpExtensions false extensions' all_supported true
  ≠ FilterRtpExtensions false extensions all_supported true.
Proof.
  split_and!; [reflexivity|apply Permutation_swap|reflexivity|reflexivity|].
  vm_compute. discriminate.
Qed.

Lemma FilterRtpExtensions_order_independent_witness :
  let extensions := [mkRtpExtension kTransportSequenceNumberUri 3 false;
                     mkRtpExtension kAbsSendTimeUri 2 false;
                     mkRtpExtension kTimestampOffsetUri 1 false] in
  let extensions' := [mkRtpExtension kAbsSendTimeUri 2 false;
                      mkRtpExtension kTransportSequenceNumberUri 3 false;
                      mkRtpExtension kTimestampOffsetUri 1 false] in
  ValidateRtpExtensions extensions = true ∧
  extensions' ≡ₚ extensions ∧
  NoDup (ext_key <$> filter (λ e, all_supported (uri e)) extensions) ∧
  ext_key <$> FilterRtpExtensions false extensions' all_supported true
  = ext_key <$> FilterRtpExtensions false extensions all_supported true ∧
  FilterRtpExtensions false extensions' all_supported true
  = FilterRtpExtensions false extensions all_supported true.
Proof.
  intros extensions extensions'.
  assert (Hnd : NoDup (ext_key <$> filter (λ e, all_supported (uri e)) extensions))
    by by apply (bool_decide_unpack _).
  destruct (FilterRtpExtensions_order_independent false extensions extensions'
              all_supported true) as [Hkeys Heq];
    [reflexivity|apply Permutation_swap|].
  split_and!; [reflexivity|apply Permutation_swap|exact Hnd|exact Hkeys|].
  exact (Heq Hnd).
Defined.

(** C5 at a valid input that offers timestamp-offset in both encryption
    forms next to absolute-send-time: the first pass erases one of the two
    timestamp-offset entries, the second pass the other. *)
Lemma FilterRtpExtensions_second_pass_differs :
  let extensions := [mkRtpExtension kAbsSendTimeUri 1 true;
                     mkRtpExtension kTimestampOffsetUri 2 true;
                     mkRtpExtension kTimestampOffsetUri 3 false] in
  ValidateRtpExtensions extensions = true ∧
  FilterRtpExtensions true extensions all_supported true
  = [mkRtpExtension kAbsSendTimeUri 1 true;
     mkRtpExtension kTimestampOffsetUri 3 false] ∧
  FilterRtpExtensions true
    (FilterRtpExtensions true extensions all_supported true)
    all_supported true
  = [mkRtpExtension kAbsSendTimeUri 1 true].
Proof. split_and!; vm_compute; reflexivity. Qed.

(** C6 fails as stated: absolute-send-time offered encrypted and
    unencrypted passes validation and both entries stay. *)
Lemma FilterRtpExtensions_group_counterexample :
  let extensions := [mkRtpExtension kAbsSendTimeUri 1 true;
                     mkRtpExtension kAbsSendTimeUri 2 false] in
  ValidateRtpExtensions extensions = true ∧
  FilterRtpExtensions true extensions all_supported true = extensions ∧
  ¬ (length (group_entries (kBweExtensionPriorities true)
               (FilterRtpExtensions true extensions all_supported true))
     ≤ 1)%nat.
Proof. split_and!; [reflexivity|reflexivity|]. vm_compute. lia. Qed.

(** C10 fails as stated: a minimum of 3000000 kbps is present and positive,
    and the field is not 1000 times it. *)
Lemma GetBitrateConfigForCodec_counterexample :
  let codec := [("x-google-min-bitrate"%string, 3000000)] in
  GetParam codec kCodecParamMinBitrate = Some 3000000 ∧
  min_bitrate_bps (GetBitrateConfigForCodec codec) = -1294967296 ∧
  min_bitrate_bps (GetBitrateConfigForCodec codec) ≠ 1000 * 3000000.
Proof. split_and!; [reflexivity|reflexivity|]. vm_compute. discriminate. Qed.

Lemma GetBitrateConfigForCodec_fields_witness :
  let codec := [("x-google-min-bitrate"%string, 30);
                ("x-google-start-bitrate"%string, 300);
                ("x-google-max-bitrate"%string, 2000)] in
  min_bitrate_bps (GetBitrateConfigForCodec codec) = 30000 ∧
  start_bitrate_bps (GetBitrateConfigForCodec codec) = 300000 ∧
  max_bitrate_bps (GetBitrateConfigForCodec codec) = 2000000.
Proof.
  intros codec.
  destruct (GetBitrateConfigForCodec_fields codec) as (Hmin & Hstart & Hmax).
  split_and!.
  - apply Hmin. simpl. lia.
  - apply Hstart. simpl. lia.
  - apply Hmax. simpl. lia.
Defined.
End Shipped.

(** * Further properties of the code *)

(** ** The comparator of the sort *)

(** X1.  The comparator handed to [absl::c_sort] is a strict weak order, as
    [std::sort] requires: it is irreflexive and transitive, and two entries
    are left unordered by it exactly when they agree on [encrypt] and [uri],
    which is the equivalence the [std::unique] predicate tests. *)
Theorem sort_less_strict_weak_order :
  (∀ x, sort_less x x = false) ∧
  (∀ x y z, sort_less x y = true → sort_less y z = true → sort_less x z = true) ∧
  (∀ x y, sort_less x y = false ∧ sort_less y x = false ↔ unique_pred x y = true).
Proof.
  split_and!.
  - apply sort_less_irrefl.
  - apply sort_less_trans.
  - intros x y. rewrite unique_pred_key. split.
    + intros [Hxy Hyx]. by apply sort_less_connex.
    + intros Hkey. split.
      * rewrite (sort_less_key x y y y) by done. apply sort_less_irrefl.
      * rewrite (sort_less_key y x y y) by done. apply sort_less_irrefl.
Qed.

(** ** More on ValidateRtpExtensions *)

(** X2.  Validation does not depend on the order of the extensions. *)
Theorem ValidateRtpExtensions_permutation `{RtpExtensionConstants}
    (extensions extensions' : list RtpExtension) :
  0 ≤ kMinId →
  extensions' ≡ₚ extensions →
  ValidateRtpExtensions extensions' = ValidateRtpExtensions extensions.
Proof.
  intros Hmin Hperm. apply eq_true_iff_eq.
  rewrite !ValidateRtpExtensions_true by done. by rewrite Hperm.
Qed.

(** X3.  Removing entries from a list that passes validation leaves a list
    that passes validation. *)
Theorem ValidateRtpExtensions_submseteq `{RtpExtensionConstants}
    (extensions extensions' : list RtpExtension) :
  0 ≤ kMinId →
  extensions' ⊆+ extensions →
  ValidateRtpExtensions extensions = true →
  ValidateRtpExtensions extensions' = true.
Proof.
  intros Hmin [k Hk]%submseteq_Permutation.
  rewrite !ValidateRtpExtensions_true by done.
  rewrite Hk, fmap_app, Forall_app, NoDup_app. tauto.
Qed.

(** X4.  A list that passes validation holds at most one extension per id
    of the range, hence at most [kMaxId - kMinId + 1] extensions. *)
Theorem ValidateRtpExtensions_length `{RtpExtensionConstants}
    (extensions : list RtpExtension) :
  0 ≤ kMinId →
  ValidateRtpExtensions extensions = true →
  (length extensions ≤ Z.to_nat (kMaxId - kMinId + 1))%nat.
Proof.
  intros Hmin [Hrange Hnd]%ValidateRtpExtensions_true; [|done].
  rewrite <- (length_fmap id extensions),
    <- (length_seqZ kMinId (kMaxId - kMinId + 1)).
  apply submseteq_length, NoDup_submseteq; [done|].
  intros x (e & -> & He)%list_elem_of_fmap.
  rewrite Forall_forall in Hrange. destruct (Hrange e He).
  apply elem_of_seqZ. lia.
Qed.

(** ** More on DiscardRedundantExtensions *)

Lemma filter_delete_out {A} (P : A → Prop) `{!∀ x, Decision (P x)}
    (l : list A) (i : nat) (x : A) :
  l !! i = Some x → ¬ P x → filter P (delete i l) = filter P l.
Proof.
  revert i. induction l as [|y l IH]; intros [|i] Hi Hx; simplify_eq/=.
  - by rewrite filter_cons_False.
  - rewrite !filter_cons. by rewrite (IH i).
Qed.

Lemma DiscardRedundantExtensions_loop_outside
    (found : bool) (prio : list string) (l : list RtpExtension) :
  filter (λ e, uri e ∉ prio) (DiscardRedundantExtensions_loop found prio l)
  = filter (λ e, uri e ∉ prio) l.
Proof.
  revert found l. induction prio as [|u prio IH]; intros found l; [done|].
  assert (Hsplit : ∀ k : list RtpExtension, filter (λ e, uri e ∉ u :: prio) k
                        = filter (λ e, uri e ≠ u) (filter (λ e, uri e ∉ prio) k)).
  { intros k. rewrite list_filter_filter. apply list_filter_iff. intros e.
    rewrite not_elem_of_cons. tauto. }
  simpl. destruct (list_find _ l) as [[it x]|] eqn:Hfind.
  - apply list_find_Some in Hfind as (Hit & Hx & _).
    rewrite Hsplit, IH, <- Hsplit. destruct found; [|done].
    apply (filter_delete_out _ l it x Hit).
    intros Hout. apply Hout. rewrite Hx. by left.
  - by rewrite Hsplit, IH, <- Hsplit.
Qed.

Lemma DiscardRedundantExtensions_loop_length
    (found : bool) (prio : list string) (l : list RtpExtension) :
  (length l ≤ length (DiscardRedundantExtensions_loop found prio l)
              + (if found then length prio else pred (length prio)))%nat.
Proof.
  revert found l. induction prio as [|u prio IH]; intros found l; simpl.
  { destruct found; lia. }
  destruct (list_find _ l) as [[it x]|] eqn:Hfind.
  - apply list_find_Some in Hfind as (Hit & _ & _).
    destruct found.
    + specialize (IH true (delete it l)). simpl in IH.
      rewrite length_delete in IH by eauto.
      apply lookup_lt_Some in Hit. lia.
    + apply (IH true l).
  - specialize (IH found l). destruct found; lia.
Qed.

Lemma DiscardRedundantExtensions_loop_absent
    (found : bool) (hi prio : list string) (l : list RtpExtension) :
  (∀ v, v ∈ hi → v ∉ uri <$> l) →
  DiscardRedundantExtensions_loop found (hi ++ prio) l
  = DiscardRedundantExtensions_loop found prio l.
Proof.
  induction hi as [|w hi IH]; intros Hhi; simpl; [done|].
  destruct (list_find _ l) as [[it x]|] eqn:Hfind.
  - apply list_find_Some in Hfind as (Hit & Hx & _).
    destruct (Hhi w); [by left|].
    apply list_elem_of_fmap. exists x. split; [done|].
    by eapply list_elem_of_lookup_2.
  - apply IH. intros v Hv. apply Hhi. by right.
Qed.

(** X5.  [DiscardRedundantExtensions] leaves every extension whose uri is not
    on the priority list where it is. *)
Theorem DiscardRedundantExtensions_outside
    (extensions : list RtpExtension) (extensions_decreasing_prio : list string) :
  filter (λ e, uri e ∉ extensions_decreasing_prio)
    (DiscardRedundantExtensions extensions extensions_decreasing_prio)
  = filter (λ e, uri e ∉ extensions_decreasing_prio) extensions.
Proof. apply DiscardRedundantExtensions_loop_outside. Qed.

(** X6.  [DiscardRedundantExtensions] erases at most one extension for each
    uri of the priority list after the first: for a list of [n] uris at most
    [n - 1] extensions go. *)
Theorem DiscardRedundantExtensions_length
    (extensions : list RtpExtension) (extensions_decreasing_prio : list string) :
  (length extensions
   ≤ length (DiscardRedundantExtensions extensions extensions_decreasing_prio)
     + (length extensions_decreasing_prio - 1))%nat.
Proof.
  pose proof (DiscardRedundantExtensions_loop_length false
                extensions_decreasing_prio extensions) as Hlen.
  unfold DiscardRedundantExtensions. simpl in Hlen. lia.
Qed.

Lemma DiscardRedundantExtensions_kept_aux
    (extensions : list RtpExtension) (hi : list string) (u : string)
    (lo : list string) :
  (∀ v, v ∈ hi → v ∉ uri <$> extensions) →
  u ∉ lo →
  filter (λ e, uri e = u) (DiscardRedundantExtensions extensions (hi ++ u :: lo))
  = filter (λ e, uri e = u) extensions.
Proof.
  intros Hhi Hu. unfold DiscardRedundantExtensions.
  rewrite DiscardRedundantExtensions_loop_absent by done.
  assert (Hkeep : ∀ found,
    filter (λ e, uri e = u) (DiscardRedundantExtensions_loop found lo extensions)
    = filter (λ e, uri e = u) extensions).
  { intros found.
    rewrite <- (list_filter_filter_l (λ e, uri e = u) (λ e, uri e ∉ lo))
      by (by intros e ->).
    rewrite DiscardRedundantExtensions_loop_outside.
    apply list_filter_filter_l. by intros e ->. }
  simpl. destruct (list_find _ extensions) as [[it x]|]; apply Hkeep.
Qed.

(** X7.  The extensions that carry the first uri of the priority list found
    among the extensions all stay: when no uri ranked before [u] is present
    and [u] is not repeated further down the list, the entries with uri [u]
    are the same before and after. *)
Theorem DiscardRedundantExtensions_first_kept
    (extensions : list RtpExtension) (hi : list string) (u : string)
    (lo : list string) :
  (∀ v, v ∈ hi → v ∉ uri <$> extensions) →
  u ∉ lo →
  filter (λ e, uri e = u) (DiscardRedundantExtensions extensions (hi ++ u :: lo))
  = filter (λ e, uri e = u) extensions.
Proof. apply DiscardRedundantExtensions_kept_aux. Qed.

(** ** More on FilterRtpExtensions *)

Lemma unique_from_key_present (kept x : RtpExtension) (l : list RtpExtension) :
  x ∈ l →
  ext_key x = ext_key kept ∨
  ∃ y, y ∈ unique_from unique_pred kept l ∧ ext_key y = ext_key x.
Proof.
  revert kept. induction l as [|a l IH]; intros kept Hx.
  { by apply elem_of_nil in Hx. }
  simpl. destruct (unique_pred kept a) eqn:Hpred.
  - apply unique_pred_key in Hpred.
    apply elem_of_cons in Hx as [->|Hx]; [by left|]. by apply IH.
  - apply elem_of_cons in Hx as [->|Hx].
    + right. exists a. split; [by left|done].
    + destruct (IH a Hx) as [Hkey|(y & Hy & Hkey)].
      * right. exists a. split; [by left|done].
      * right. exists y. split; [by right|done].
Qed.

(** [std::unique] keeps an entry of every key. *)
Lemma unique_key_present (x : RtpExtension) (l : list RtpExtension) :
  x ∈ l → ∃ y, y ∈ unique unique_pred l ∧ ext_key y = ext_key x.
Proof.
  destruct l as [|a l]; intros Hx.
  { by apply elem_of_nil in Hx. }
  simpl. apply elem_of_cons in Hx as [->|Hx].
  { exists a. split; [by left|done]. }
  destruct (unique_from_key_present a x l Hx) as [Hkey|(y & Hy & Hkey)].
  - exists a. split; [by left|done].
  - exists y. split; [by right|done].
Qed.

Lemma unique_c_sort_key_present (x : RtpExtension) (l : list RtpExtension) :
  x ∈ l →
  ∃ y, y ∈ unique unique_pred (c_sort sort_less l) ∧ ext_key y = ext_key x.
Proof. intros Hx. apply unique_key_present. by rewrite c_sort_perm. Qed.

Lemma ext_key_uri (x y : RtpExtension) : ext_key x = ext_key y → uri x = uri y.
Proof. unfold ext_key. congruence. Qed.

Lemma list_find_None_filter {A} (P : A → Prop) `{!∀ x, Decision (P x)}
    (l : list A) :
  list_find P l = None ↔ filter P l = [].
Proof.
  rewrite list_find_None. induction l as [|x l IH].
  { split; [done|constructor]. }
  rewrite Forall_cons, filter_cons. destruct (decide (P x)) as [Hx|Hx].
  - split; [by intros []|done].
  - rewrite <- IH. tauto.
Qed.

Lemma filter_sublist_mono {A} (P : A → Prop) `{!∀ x, Decision (P x)}
    (l1 l2 : list A) :
  l1 `sublist_of` l2 → filter P l1 `sublist_of` filter P l2.
Proof.
  induction 1 as [|y k1 k2 Hsub IH|y k1 k2 Hsub IH]; [done|..];
    rewrite ?filter_cons; destruct (decide (P y)); try done;
    by constructor.
Qed.

(** Erasing the first match on both sides keeps a sublist a sublist when the
    two lists hold the same matches. *)
Lemma sublist_delete_found {A} (P : A → Prop) `{!∀ x, Decision (P x)}
    (l1 l2 : list A) :
  l1 `sublist_of` l2 →
  filter P l1 = filter P l2 →
  match list_find P l1 with Some (i, _) => delete i l1 | None => l1 end
  `sublist_of`
  match list_find P l2 with Some (i, _) => delete i l2 | None => l2 end.
Proof.
  induction 1 as [|x l1 l2 Hsub IH|x l1 l2 Hsub IH]; intros Hfilter.
  - done.
  - cbn. rewrite !filter_cons in Hfilter.
    destruct (decide (P x)); [done|].
    specialize (IH Hfilter).
    destruct (list_find P l1) as [[]|], (list_find P l2) as [[]|];
      simpl; by apply sublist_skip.
  - cbn. rewrite filter_cons in Hfilter. destruct (decide (P x)).
    + assert (Hlen : (length (filter P l1) ≤ length (filter P l2))%nat).
      { by apply sublist_length, filter_sublist_mono. }
      rewrite Hfilter in Hlen. simpl in Hlen. lia.
    + specialize (IH Hfilter).
      destruct (list_find P l1) as [[]|], (list_find P l2) as [[]|];
        simpl; simpl in IH; by apply sublist_cons.
Qed.

(** A pass that starts with an earlier uri found erases whatever a pass that
    starts without one erases. *)
Lemma DiscardRedundantExtensions_loop_monotone (prio : list string) :
  NoDup prio →
  ∀ (f1 f2 : bool) (l1 l2 : list RtpExtension),
  l1 `sublist_of` l2 →
  (f2 = true → f1 = true) →
  (∀ v, v ∈ prio → filter (λ e, uri e = v) l1 = filter (λ e, uri e = v) l2) →
  DiscardRedundantExtensions_loop f1 prio l1
  `sublist_of` DiscardRedundantExtensions_loop f2 prio l2.
Proof.
  induction 1 as [|u prio Hu Hnd IH]; intros f1 f2 l1 l2 Hsub Hf Hagree; [done|].
  simpl.
  assert (Hu12 : filter (λ e, uri e = u) l1 = filter (λ e, uri e = u) l2)
    by (apply Hagree; by left).
  pose proof (sublist_delete_found (λ e, uri e = u) l1 l2 Hsub Hu12) as Hdel.
  assert (Hrest : ∀ (k : list RtpExtension) i x v,
    k !! i = Some x → uri x = u → v ∈ prio →
    filter (λ e, uri e = v) (delete i k) = filter (λ e, uri e = v) k).
  { intros k i x v Hi Hx Hv. apply (filter_delete_out _ k i x Hi).
    intros Hxv. apply Hu. by rewrite <- Hx, Hxv. }
  destruct (list_find _ l1) as [[i1 x1]|] eqn:H1,
           (list_find _ l2) as [[i2 x2]|] eqn:H2.
  - apply list_find_Some in H1 as (Hi1 & Hx1 & _).
    apply list_find_Some in H2 as (Hi2 & Hx2 & _).
    apply IH; [|done|].
    + destruct f1, f2; try done.
      * etransitivity; [apply sublist_delete|done].
      * by discriminate Hf.
    + intros v Hv.
      assert (Hv12 : filter (λ e, uri e = v) l1 = filter (λ e, uri e = v) l2)
        by (apply Hagree; by right).
      destruct f1, f2; rewrite ?(Hrest l1 i1 x1 v), ?(Hrest l2 i2 x2 v); done.
  - apply list_find_None_filter in H2. rewrite <- Hu12 in H2.
    apply list_find_None_filter in H2. congruence.
  - apply list_find_None_filter in H1. rewrite Hu12 in H1.
    apply list_find_None_filter in H1. congruence.
  - apply IH; [done..|]. intros v Hv. apply Hagree. by right.
Qed.

Section FilterFurther.
Context `{RtpExtensionConstants}.

Lemma FilterRtpExtensions_key_present_aux (keep_abs_send_time : bool)
    (extensions : list RtpExtension) (supported : string → bool)
    (e : RtpExtension) :
  e ∈ extensions → supported (uri e) = true →
  ∃ y, y ∈ unique unique_pred
             (c_sort sort_less (filter (λ e, supported (uri e)) extensions)) ∧
       ext_key y = ext_key e.
Proof.
  intros He Hs. apply unique_c_sort_key_present.
  apply list_elem_of_filter. split; [by rewrite Hs|done].
Qed.

Lemma FilterRtpExtensions_winner_aux (keep_abs_send_time : bool)
    (extensions : list RtpExtension) (supported : string → bool)
    (hi : list string) (u : string) (lo : list string) (y : RtpExtension) :
  let R0 := unique unique_pred
              (c_sort sort_less (filter (λ e, supported (uri e)) extensions)) in
  kBweExtensionPriorities keep_abs_send_time = hi ++ u :: lo →
  (∀ v, v ∈ hi → v ∉ uri <$> R0) →
  u ∉ lo →
  y ∈ R0 → uri y = u →
  y ∈ FilterRtpExtensions keep_abs_send_time extensions supported true.
Proof.
  intros R0 Hprio Hhi Hu Hy Huri. unfold FilterRtpExtensions. fold R0.
  assert (Hin : y ∈ filter (λ e, uri e = u)
                      (DiscardRedundantExtensions R0 (hi ++ u :: lo))).
  { rewrite DiscardRedundantExtensions_kept_aux by done.
    by apply list_elem_of_filter. }
  rewrite Hprio. by apply list_elem_of_filter in Hin as [_ ?].
Qed.
End FilterFurther.

(** X8.  The filter never adds an extension: the result holds only supported
    entries of the input, none more often than the input does. *)
Theorem FilterRtpExtensions_only_supported_candidates `{RtpExtensionConstants}
    (keep_abs_send_time : bool) (extensions : list RtpExtension)
    (supported : string → bool) (filter_redundant_extensions : bool) :
  FilterRtpExtensions keep_abs_send_time extensions supported
    filter_redundant_extensions ⊆+ extensions ∧
  Forall (λ e, supported (uri e) = true)
    (FilterRtpExtensions keep_abs_send_time extensions supported
       filter_redundant_extensions).
Proof.
  split.
  - etransitivity; [apply FilterRtpExtensions_submseteq|].
    apply sublist_submseteq, sublist_filter.
  - apply Forall_forall. intros e [Hs _]%FilterRtpExtensions_elem_of.
    by destruct (supported (uri e)).
Qed.

(** X9.  The result of the filter passes validation whenever the input
    does, so it can be handed to [FilterRtpExtensions] again. *)
Theorem FilterRtpExtensions_result_valid `{RtpExtensionConstants}
    (keep_abs_send_time : bool) (extensions : list RtpExtension)
    (supported : string → bool) (filter_redundant_extensions : bool) :
  0 ≤ kMinId →
  ValidateRtpExtensions extensions = true →
  ValidateRtpExtensions
    (FilterRtpExtensions keep_abs_send_time extensions supported
       filter_redundant_extensions) = true.
Proof. apply FilterRtpExtensions_valid. Qed.

(** X10.  Without redundancy filtering the result is a reordering of the
    supported candidates: nothing but unsupported extensions is dropped. *)
Theorem FilterRtpExtensions_keep_redundant_perm `{RtpExtensionConstants}
    (keep_abs_send_time : bool) (extensions : list RtpExtension)
    (supported : string → bool) :
  FilterRtpExtensions keep_abs_send_time extensions supported false
  ≡ₚ filter (λ e, supported (uri e)) extensions.
Proof. apply c_sort_perm. Qed.

(** X11.  Filtering a returned list again without redundancy filtering
    changes nothing that the comparator sees: the sequence of
    [(encrypt, uri)] keys stays as it is, and a list returned with
    redundancy filtering, in which no key repeats, comes back unchanged.
    Both follow from the result being sorted, whatever order the sort gives
    to entries it does not separate. *)
Theorem FilterRtpExtensions_keep_redundant_fixpoint `{RtpExtensionConstants}
    (keep_abs_send_time keep_abs_send_time' : bool)
    (extensions : list RtpExtension) (supported : string → bool)
    (filter_redundant_extensions : bool) :
  ext_key <$>
    FilterRtpExtensions keep_abs_send_time'
      (FilterRtpExtensions keep_abs_send_time extensions supported
         filter_redundant_extensions)
      supported false
  = ext_key <$>
      FilterRtpExtensions keep_abs_send_time extensions supported
        filter_redundant_extensions ∧
  FilterRtpExtensions keep_abs_send_time'
    (FilterRtpExtensions keep_abs_send_time extensions supported true)
    supported false
  = FilterRtpExtensions keep_abs_send_time extensions supported true.
Proof.
  assert (Hsupp : ∀ fr,
    filter (λ e, supported (uri e))
      (FilterRtpExtensions keep_abs_send_time extensions supported fr)
    = FilterRtpExtensions keep_abs_send_time extensions supported fr).
  { intros fr. apply filter_all, Forall_forall. intros e He.
    by apply FilterRtpExtensions_elem_of in He as [? _]. }
  split.
  - unfold FilterRtpExtensions at 1. rewrite Hsupp.
    apply (StronglySorted_unique_strong key_le).
    + intros [e1 u1] [e2 u2] _ _ H12 H21.
      by apply (sort_less_connex (of_key (e1, u1)) (of_key (e2, u2))).
    + eapply StronglySorted_fmap; [apply sort_le_key_le|apply c_sort_sorted].
    + eapply StronglySorted_fmap; [apply sort_le_key_le|].
      apply FilterRtpExtensions_sorted_le.
    + by rewrite c_sort_perm.
  - unfold FilterRtpExtensions at 1. rewrite Hsupp.
    symmetry. apply sorted_perm_unique.
    + apply sort_lt_sorted_NoDup_keys, FilterRtpExtensions_redundant_sorted.
    + apply FilterRtpExtensions_sorted_le.
    + apply c_sort_sorted.
    + by rewrite c_sort_perm.
Qed.

(** X12.  With redundancy filtering no two entries of the result share uri
    and encryption flag: the sort brings equal pairs together, so that
    [std::unique] removes every repetition. *)
Theorem FilterRtpExtensions_no_repeated_key `{RtpExtensionConstants}
    (keep_abs_send_time : bool) (extensions : list RtpExtension)
    (supported : string → bool) :
  NoDup (ext_key <$>
           FilterRtpExtensions keep_abs_send_time extensions supported true).
Proof.
  apply sort_lt_sorted_NoDup_keys, FilterRtpExtensions_redundant_sorted.
Qed.

(** X13.  Redundancy filtering only removes: the result with the flag set is
    a sublist of the result without it. *)
Theorem FilterRtpExtensions_redundant_sublist `{RtpExtensionConstants}
    (keep_abs_send_time : bool) (extensions : list RtpExtension)
    (supported : string → bool) :
  FilterRtpExtensions keep_abs_send_time extensions supported true
  `sublist_of`
  FilterRtpExtensions keep_abs_send_time extensions supported false.
Proof. apply (FilterRtpExtensions_sublist keep_abs_send_time _ _ true). Qed.

(** X14.  A supported candidate whose uri is not on the active priority list
    is represented in the result: an entry with its uri and encryption flag
    is there. *)
Theorem FilterRtpExtensions_outside_group_kept `{RtpExtensionConstants}
    (keep_abs_send_time : bool) (extensions : list RtpExtension)
    (supported : string → bool) (e : RtpExtension) :
  e ∈ extensions →
  supported (uri e) = true →
  uri e ∉ kBweExtensionPriorities keep_abs_send_time →
  ∃ e', e' ∈ FilterRtpExtensions keep_abs_send_time extensions supported true ∧
        ext_key e' = ext_key e.
Proof.
  intros He Hs Hout.
  destruct (FilterRtpExtensions_key_present_aux keep_abs_send_time extensions
              supported e He Hs) as (y & Hy & Hkey).
  exists y. split; [|done].
  assert (Hin : y ∈ filter
            (λ e, uri e ∉ kBweExtensionPriorities keep_abs_send_time)
            (FilterRtpExtensions keep_abs_send_time extensions supported true)).
  { unfold FilterRtpExtensions, DiscardRedundantExtensions.
    rewrite DiscardRedundantExtensions_loop_outside.
    apply list_elem_of_filter. split; [|done].
    by rewrite (ext_key_uri y e). }
  by apply list_elem_of_filter in Hin as [_ ?].
Qed.

(** X15.  The highest-priority uri of the active list that a supported
    candidate carries is never given up: for every supported candidate with
    that uri the result holds an entry with its uri and encryption flag.
    The uri is not repeated further down the priority list. *)
Theorem FilterRtpExtensions_winner_kept `{RtpExtensionConstants}
    (keep_abs_send_time : bool) (extensions : list RtpExtension)
    (supported : string → bool) (hi : list string) (u : string)
    (lo : list string) (e : RtpExtension) :
  kBweExtensionPriorities keep_abs_send_time = hi ++ u :: lo →
  u ∉ lo →
  (∀ c, c ∈ extensions → supported (uri c) = true → uri c ∉ hi) →
  e ∈ extensions →
  supported (uri e) = true →
  uri e = u →
  ∃ e', e' ∈ FilterRtpExtensions keep_abs_send_time extensions supported true ∧
        ext_key e' = ext_key e.
Proof.
  intros Hprio Hu Hhi He Hs Huri.
  destruct (FilterRtpExtensions_key_present_aux keep_abs_send_time extensions
              supported e He Hs) as (y & Hy & Hkey).
  exists y. split; [|done].
  apply (FilterRtpExtensions_winner_aux _ _ _ hi u lo); [done| |done..|].
  - intros v Hv (c & -> & Hc)%list_elem_of_fmap.
    apply unique_c_sort_elem_of, list_elem_of_filter in Hc as [Hcs Hc].
    apply (Hhi c); [done| |done]. by destruct (supported (uri c)).
  - by rewrite (ext_key_uri y e).
Qed.

(** X16.  The filter returns the empty list only when no candidate is
    supported: mutual exclusion never removes the last extension.  The uris
    of the active priority list are pairwise distinct. *)
Theorem FilterRtpExtensions_empty_iff `{RtpExtensionConstants}
    (keep_abs_send_time : bool) (extensions : list RtpExtension)
    (supported : string → bool) (filter_redundant_extensions : bool) :
  NoDup (kBweExtensionPriorities keep_abs_send_time) →
  FilterRtpExtensions keep_abs_send_time extensions supported
    filter_redundant_extensions = [] ↔
  ∀ e, e ∈ extensions → supported (uri e) = false.
Proof.
  intros Hnd. split.
  - intros Hnil e He. destruct (supported (uri e)) eqn:Hs; [|done].
    exfalso. destruct filter_redundant_extensions.
    + destruct (FilterRtpExtensions_key_present_aux keep_abs_send_time
                  extensions supported e He Hs) as (y & Hy & _).
      set (R0 := unique unique_pred (c_sort sort_less
                   (filter (λ e, supported (uri e)) extensions))) in *.
      destruct (first_present_split
                  (kBweExtensionPriorities keep_abs_send_time) R0)
        as [Hnone|(hi & u & lo & Hprio & Hhi & Hu)].
      * unfold FilterRtpExtensions in Hnil. fold R0 in Hnil.
        rewrite DiscardRedundantExtensions_none_present in Hnil by done.
        rewrite Hnil in Hy. by apply elem_of_nil in Hy.
      * apply list_elem_of_fmap in Hu as (z & -> & Hz).
        rewrite Hprio in Hnd. apply NoDup_app in Hnd as (_ & _ & Hnd).
        apply NoDup_cons in Hnd as [Hu _].
        pose proof (FilterRtpExtensions_winner_aux keep_abs_send_time
          extensions supported hi (uri z) lo z Hprio Hhi Hu Hz eq_refl) as Hin.
        rewrite Hnil in Hin. by apply elem_of_nil in Hin.
    + assert (Hin : e ∈ FilterRtpExtensions keep_abs_send_time extensions
                          supported false).
      { unfold FilterRtpExtensions. rewrite c_sort_perm.
        apply list_elem_of_filter. by rewrite Hs. }
      rewrite Hnil in Hin. by apply elem_of_nil in Hin.
  - intros Hnone.
    assert (Hempty : filter (λ e, supported (uri e)) extensions = []).
    { apply (list_find_None_filter (λ e, supported (uri e))), list_find_None.
      apply Forall_forall. intros e He. rewrite (Hnone e He). by intros []. }
    apply sublist_nil_r.
    pose proof (FilterRtpExtensions_sublist keep_abs_send_time extensions
                  supported filter_redundant_extensions) as Hsub.
    by rewrite Hempty in Hsub.
Qed.

(** X17.  Switching the field trial on never costs an extension: with
    redundancy filtering, the result with the trial off is a sublist of the
    result with the trial on.  The uris of absolute-send-time and
    timestamp-offset differ. *)
Theorem FilterRtpExtensions_trial_monotone `{RtpExtensionConstants}
    (extensions : list RtpExtension) (supported : string → bool) :
  kAbsSendTimeUri ≠ kTimestampOffsetUri →
  FilterRtpExtensions false extensions supported true
  `sublist_of` FilterRtpExtensions true extensions supported true.
Proof.
  intros Hne. unfold FilterRtpExtensions, DiscardRedundantExtensions. simpl.
  set (R0 := unique unique_pred (c_sort sort_less
               (filter (λ e, supported (uri e)) extensions))).
  assert (Hnd : NoDup [kAbsSendTimeUri; kTimestampOffsetUri]).
  { apply NoDup_cons. split; [|apply NoDup_singleton].
    by intros Heq%list_elem_of_singleton. }
  destruct (list_find (λ rhs, uri rhs = kTransportSequenceNumberUri) R0)
    as [[it x]|].
  - by apply (DiscardRedundantExtensions_loop_monotone _ Hnd true false R0 R0).
  - by apply (DiscardRedundantExtensions_loop_monotone _ Hnd false false R0 R0).
Qed.

(** ** More on GetBitrateConfigForCodec *)

Lemma int_wrap_range (z : Z) : - 2 ^ 31 ≤ int_wrap z < 2 ^ 31.
Proof.
  unfold int_wrap.
  pose proof (Z.mod_pos_bound (z + 2 ^ 31) (2 ^ 32)). lia.
Qed.

Lemma int_mul_exact_iff (bitrate_kbps : Z) :
  0 < bitrate_kbps →
  int_mul bitrate_kbps 1000 = 1000 * bitrate_kbps ↔ bitrate_kbps ≤ 2147483.
Proof.
  intros Hpos. unfold int_mul. split.
  - intros Heq. pose proof (int_wrap_range (bitrate_kbps * 1000)). lia.
  - intros Hfit. rewrite int_wrap_fits; lia.
Qed.

Lemma scaled_field_exact_iff (default : Z) (param : option Z) (v : Z) :
  param = Some v → 0 < v →
  (match param with
   | Some bitrate_kbps =>
       if bitrate_kbps >? 0 then int_mul bitrate_kbps 1000 else default
   | None => default
   end) = 1000 * v ↔ v ≤ 2147483.
Proof.
  intros -> Hpos. assert ((v >? 0) = true) as -> by by apply Z.gtb_lt.
  by apply int_mul_exact_iff.
Qed.

(** X18.  The bound 2147483 is sharp: for a parameter that is present and
    strictly positive, the field equals 1000 times the parameter exactly
    when the parameter is at most 2147483; above it the [int] product
    overflows and the field holds another value. *)
Theorem GetBitrateConfigForCodec_exact_iff {Codec : Type} `{CodecInterface Codec}
    (codec : Codec) :
  (∀ v, GetParam codec kCodecParamMinBitrate = Some v → 0 < v →
        (min_bitrate_bps (GetBitrateConfigForCodec codec) = 1000 * v
         ↔ v ≤ 2147483)) ∧
  (∀ v, GetParam codec kCodecParamStartBitrate = Some v → 0 < v →
        (start_bitrate_bps (GetBitrateConfigForCodec codec) = 1000 * v
         ↔ v ≤ 2147483)) ∧
  (∀ v, GetParam codec kCodecParamMaxBitrate = Some v → 0 < v →
        (max_bitrate_bps (GetBitrateConfigForCodec codec) = 1000 * v
         ↔ v ≤ 2147483)).
Proof. split_and!; intros v Hv Hpos; by apply scaled_field_exact_iff. Qed.

Lemma scaled_or_sign (default : Z) (param : option Z) :
  scaled_or default param = default ∨ 1000 ≤ scaled_or default param.
Proof.
  destruct param as [v|]; simpl; [|by left].
  destruct (v >? 0) eqn:Hpos; [|by left].
  apply Z.gtb_lt in Hpos. right. lia.
Qed.

(** X19.  When the three parameters are absent or at most 2147483, the
    minimum is 0 or at least 1000, and start and maximum are -1 or at least
    1000: a start or maximum of 0, or a negative one other than -1, is never
    returned. *)
Theorem GetBitrateConfigForCodec_sign {Codec : Type} `{CodecInterface Codec}
    (codec : Codec) :
  product_fits_int (GetParam codec kCodecParamMinBitrate) →
  product_fits_int (GetParam codec kCodecParamStartBitrate) →
  product_fits_int (GetParam codec kCodecParamMaxBitrate) →
  (min_bitrate_bps (GetBitrateConfigForCodec codec) = 0 ∨
   1000 ≤ min_bitrate_bps (GetBitrateConfigForCodec codec)) ∧
  (start_bitrate_bps (GetBitrateConfigForCodec codec) = -1 ∨
   1000 ≤ start_bitrate_bps (GetBitrateConfigForCodec codec)) ∧
  (max_bitrate_bps (GetBitrateConfigForCodec codec) = -1 ∨
   1000 ≤ max_bitrate_bps (GetBitrateConfigForCodec codec)).
Proof.
  intros Hmin Hstart Hmax. unfold GetBitrateConfigForCodec. simpl.
  rewrite !scaled_field by done.
  split_and!; apply scaled_or_sign.
Qed.

(** ** More on the acknowledged bitrate tracker *)

Lemma update_calls_no_expect (batch : list (PacketFeedback * bool)) :
  filter (λ c, is_expect_call c = true) (update_calls batch) = [] ∧
  filter (λ c, is_expect_call c = false) (update_calls batch)
  = update_calls batch.
Proof.
  unfold update_calls. induction batch as [|rec batch [IH1 IH2]]; [done|].
  csimpl. rewrite filter_cons_False by (simpl; congruence).
  rewrite filter_cons_True by (simpl; congruence). by rewrite IH1, IH2.
Qed.

Lemma IncomingPacketFeedbackVector_cons
    (s : AcknowledgedBitrateEstimator MockBitrateEstimator)
    (rec : PacketFeedback * bool) (batch : list (PacketFeedback * bool)) :
  IncomingPacketFeedbackVector s (rec :: batch)
  = IncomingPacketFeedbackVector (ProcessFeedbackRecord s rec) batch.
Proof. reflexivity. Qed.

Lemma ProcessFeedbackRecord_armed (m : MockBitrateEstimator) (t : Z)
    (packet : PacketFeedback) (in_alr : bool) :
  ProcessFeedbackRecord (mkAcknowledgedBitrateEstimator m (Some t))
    (packet, in_alr)
  = if receive_time packet >=? t
    then mkAcknowledgedBitrateEstimator
           (mkMockBitrateEstimator
              (calls m ++ [CallExpectFastRateChange;
                           CallUpdate (receive_time packet)
                             (payload_size packet) in_alr])
              (return_value m)) None
    else mkAcknowledgedBitrateEstimator
           (mkMockBitrateEstimator
              (calls m ++ [CallUpdate (receive_time packet)
                             (payload_size packet) in_alr])
              (return_value m)) (Some t).
Proof.
  simpl. destruct (receive_time packet >=? t); [|done].
  simpl. by rewrite <- app_assoc.
Qed.

(** What one batch adds to the calls the mock has recorded. *)
Lemma IncomingPacketFeedbackVector_calls
    (batch : list (PacketFeedback * bool))
    (s : AcknowledgedBitrateEstimator MockBitrateEstimator) :
  ∃ new,
    calls (bitrate_estimator (IncomingPacketFeedbackVector s batch))
    = calls (bitrate_estimator s) ++ new ∧
    filter (λ c, is_expect_call c = false) new = update_calls batch ∧
    (length (filter (λ c, is_expect_call c = true) new) ≤ 1)%nat ∧
    (alr_ended_time s = None →
     filter (λ c, is_expect_call c = true) new = [] ∧
     alr_ended_time (IncomingPacketFeedbackVector s batch) = None).
Proof.
  revert s. induction batch as [|[packet in_alr] batch IH]; intros s.
  { exists []. simpl. rewrite app_nil_r. split_and!; try done. simpl. lia. }
  destruct s as [m [t|]].
  - rewrite IncomingPacketFeedbackVector_cons, ProcessFeedbackRecord_armed.
    destruct (receive_time packet >=? t) eqn:Hfire.
    + rewrite IncomingPacketFeedbackVector_idle.
      destruct (update_calls_no_expect batch) as [Hno Hall].
      exists (CallExpectFastRateChange
              :: CallUpdate (receive_time packet) (payload_size packet) in_alr
              :: update_calls batch).
      split_and!.
      * simpl. by rewrite <- !app_assoc.
      * rewrite filter_cons_False by (simpl; congruence).
        rewrite filter_cons_True by (simpl; congruence). by rewrite Hall.
      * rewrite filter_cons_True by (simpl; congruence).
        rewrite filter_cons_False by (simpl; congruence).
        rewrite Hno. simpl. lia.
      * done.
    + destruct (IH (mkAcknowledgedBitrateEstimator
                      (mkMockBitrateEstimator
                         (calls m ++ [CallUpdate (receive_time packet)
                                        (payload_size packet) in_alr])
                         (return_value m)) (Some t)))
        as (new & Hcalls & Hupd & Hexp & _).
      exists (CallUpdate (receive_time packet) (payload_size packet) in_alr
              :: new).
      split_and!.
      * rewrite Hcalls. simpl. by rewrite <- app_assoc.
      * rewrite filter_cons_True by (simpl; congruence). by rewrite Hupd.
      * by rewrite filter_cons_False by (simpl; congruence).
      * done.
  - rewrite IncomingPacketFeedbackVector_idle. simpl.
    destruct (update_calls_no_expect ((packet, in_alr) :: batch)) as [Hno Hall].
    exists (update_calls ((packet, in_alr) :: batch)).
    split_and!; [done|done| |done]. rewrite Hno. simpl. lia.
Qed.

Lemma IncomingPacketFeedbackVector_concat
    (batches : list (list (PacketFeedback * bool)))
    (s : AcknowledgedBitrateEstimator MockBitrateEstimator) :
  foldl IncomingPacketFeedbackVector s batches
  = IncomingPacketFeedbackVector s (concat batches).
Proof.
  revert s. induction batches as [|batch batches IH]; intros s; simpl; [done|].
  by rewrite IH, IncomingPacketFeedbackVector_app.
Qed.

(** X20.  Whatever the state of the marker, a batch results in exactly one
    [Update] call per record, in batch order and with the record's receive
    time, payload size and [in_alr] flag, after the calls made before. *)
Theorem IncomingPacketFeedbackVector_updates_in_order
    (s : AcknowledgedBitrateEstimator MockBitrateEstimator)
    (batch : list (PacketFeedback * bool)) :
  ∃ new,
    calls (bitrate_estimator (IncomingPacketFeedbackVector s batch))
    = calls (bitrate_estimator s) ++ new ∧
    filter (λ c, is_expect_call c = false) new = update_calls batch.
Proof.
  destruct (IncomingPacketFeedbackVector_calls batch s)
    as (new & Hcalls & Hupd & _).
  by exists new.
Qed.

(** X21.  Over any sequence of batches with no [SetAlrEndedTime] in between,
    [ExpectFastRateChange] is called at most once, and not at all when the
    tracker starts with no marker armed. *)
Theorem IncomingPacketFeedbackVector_expect_at_most_once
    (s : AcknowledgedBitrateEstimator MockBitrateEstimator)
    (batches : list (list (PacketFeedback * bool))) :
  ∃ new,
    calls (bitrate_estimator (foldl IncomingPacketFeedbackVector s batches))
    = calls (bitrate_estimator s) ++ new ∧
    (length (filter (λ c, is_expect_call c = true) new) ≤ 1)%nat ∧
    (alr_ended_time s = None → filter (λ c, is_expect_call c = true) new = []).
Proof.
  rewrite IncomingPacketFeedbackVector_concat.
  destruct (IncomingPacketFeedbackVector_calls (concat batches) s)
    as (new & Hcalls & _ & Hone & Hidle).
  exists new. split_and!; [done..|]. intros Hnone. by apply Hidle.
Qed.

(** ** The further properties at the shipped constants *)

Section ShippedFurther.
#[local] Existing Instance webrtc_constants.
#[local] Existing Instance param_list_codec.

Lemma ValidateRtpExtensions_permutation_witness :
  let a := mkRtpExtension kAbsSendTimeUri 2 false in
  let b := mkRtpExtension kTimestampOffsetUri 1 false in
  0 ≤ kMinId ∧ [b; a] ≡ₚ [a; b] ∧
  ValidateRtpExtensions [b; a] = ValidateRtpExtensions [a; b].
Proof.
  intros a b. split; [simpl; lia|]. split; [apply Permutation_swap|].
  apply ValidateRtpExtensions_permutation; [simpl; lia|apply Permutation_swap].
Defined.

Lemma ValidateRtpExtensions_submseteq_witness :
  let a := mkRtpExtension kAbsSendTimeUri 2 false in
  let b := mkRtpExtension kTimestampOffsetUri 1 false in
  0 ≤ kMinId ∧ [a] ⊆+ [a; b] ∧ ValidateRtpExtensions [a; b] = true ∧
  ValidateRtpExtensions [a] = true.
Proof.
  intros a b.
  assert (Hsub : [a] ⊆+ [a; b])
    by apply sublist_submseteq, sublist_skip, sublist_nil_l.
  split_and!; [simpl; lia|exact Hsub|reflexivity|].
  apply (ValidateRtpExtensions_submseteq [a; b] [a]);
    [simpl; lia|exact Hsub|reflexivity].
Defined.

Lemma ValidateRtpExtensions_length_witness :
  let a := mkRtpExtension kAbsSendTimeUri 2 false in
  let b := mkRtpExtension kTimestampOffsetUri 1 false in
  0 ≤ kMinId ∧ ValidateRtpExtensions [a; b] = true ∧
  (length [a; b] ≤ Z.to_nat (kMaxId - kMinId + 1))%nat.
Proof.
  intros a b. split_and!; [simpl; lia|reflexivity|].
  apply ValidateRtpExtensions_length; [simpl; lia|reflexivity].
Defined.

Lemma DiscardRedundantExtensions_first_kept_witness :
  let a := mkRtpExtension kAbsSendTimeUri 2 false in
  let b := mkRtpExtension kTimestampOffsetUri 1 false in
  (kAbsSendTimeUri ∉ [kTimestampOffsetUri]) ∧
  filter (λ e, uri e = kAbsSendTimeUri)
    (DiscardRedundantExtensions [a; b]
       ([kTransportSequenceNumberUri] ++ kAbsSendTimeUri :: [kTimestampOffsetUri]))
  = filter (λ e, uri e = kAbsSendTimeUri) [a; b].
Proof.
  intros a b.
  assert (Hlo : kAbsSendTimeUri ∉ [kTimestampOffsetUri])
    by by apply (bool_decide_unpack _).
  split; [exact Hlo|].
  apply DiscardRedundantExtensions_first_kept; [|exact Hlo].
  intros v Hv. apply list_elem_of_singleton in Hv. rewrite Hv.
  by apply (bool_decide_unpack _).
Defined.

Lemma FilterRtpExtensions_result_valid_witness :
  let a := mkRtpExtension kAbsSendTimeUri 2 false in
  let b := mkRtpExtension kTimestampOffsetUri 1 false in
  0 ≤ kMinId ∧ ValidateRtpExtensions [a; b] = true ∧
  ValidateRtpExtensions (FilterRtpExtensions false [a; b] all_supported true)
  = true.
Proof.
  intros a b. split_and!; [simpl; lia|reflexivity|].
  apply FilterRtpExtensions_result_valid; [simpl; lia|reflexivity].
Defined.

Lemma FilterRtpExtensions_outside_group_kept_witness :
  let audio_level :=
    mkRtpExtension "urn:ietf:params:rtp-hdrext:ssrc-audio-level" 4 false in
  let extensions := [mkRtpExtension kTransportSequenceNumberUri 3 false;
                     mkRtpExtension kAbsSendTimeUri 2 false; audio_level] in
  ∃ e', e' ∈ FilterRtpExtensions false extensions all_supported true ∧
        ext_key e' = ext_key audio_level.
Proof.
  intros audio_level extensions.
  apply FilterRtpExtensions_outside_group_kept.
  - by apply (bool_decide_unpack _).
  - reflexivity.
  - by apply (bool_decide_unpack _).
Defined.

Lemma FilterRtpExtensions_winner_kept_witness :
  let tsn := mkRtpExtension kTransportSequenceNumberUri 3 true in
  let extensions := [mkRtpExtension kAbsSendTimeUri 2 false; tsn;
                     mkRtpExtension kTransportSequenceNumberUri 4 false] in
  ∃ e', e' ∈ FilterRtpExtensions false extensions all_supported true ∧
        ext_key e' = ext_key tsn.
Proof.
  intros tsn extensions.
  apply (FilterRtpExtensions_winner_kept false extensions all_supported
           [] kTransportSequenceNumberUri
           [kAbsSendTimeUri; kTimestampOffsetUri] tsn).
  - reflexivity.
  - by apply (bool_decide_unpack _).
  - intros c _ _. apply not_elem_of_nil.
  - by apply (bool_decide_unpack _).
  - reflexivity.
  - reflexivity.
Defined.

Lemma FilterRtpExtensions_empty_iff_witness :
  let extensions := [mkRtpExtension kAbsSendTimeUri 2 false] in
  let none_supported := λ _ : string, false in
  NoDup (kBweExtensionPriorities false) ∧
  (FilterRtpExtensions false extensions none_supported true = [] ↔
   ∀ e, e ∈ extensions → none_supported (uri e) = false).
Proof.
  intros extensions none_supported.
  assert (Hnd : NoDup (kBweExtensionPriorities false))
    by exact shipped_uris_distinct.
  split; [exact Hnd|]. by apply FilterRtpExtensions_empty_iff.
Defined.

Lemma FilterRtpExtensions_trial_monotone_witness :
  let extensions := [mkRtpExtension kTransportSequenceNumberUri 3 false;
                     mkRtpExtension kAbsSendTimeUri 2 false;
                     mkRtpExtension kTimestampOffsetUri 1 false] in
  kAbsSendTimeUri ≠ kTimestampOffsetUri ∧
  FilterRtpExtensions false extensions all_supported true
  `sublist_of` FilterRtpExtensions true extensions all_supported true.
Proof.
  intros extensions.
  assert (Hne : kAbsSendTimeUri ≠ kTimestampOffsetUri) by discriminate.
  split; [exact Hne|]. by apply FilterRtpExtensions_trial_monotone.
Defined.

Lemma GetBitrateConfigForCodec_exact_iff_witness :
  let codec := [("x-google-min-bitrate"%string, 30);
                ("x-google-start-bitrate"%string, 300);
                ("x-google-max-bitrate"%string, 3000000)] in
  (min_bitrate_bps (GetBitrateConfigForCodec codec) = 1000 * 30
   ↔ 30 ≤ 2147483) ∧
  (start_bitrate_bps (GetBitrateConfigForCodec codec) = 1000 * 300
   ↔ 300 ≤ 2147483) ∧
  (max_bitrate_bps (GetBitrateConfigForCodec codec) = 1000 * 3000000
   ↔ 3000000 ≤ 2147483).
Proof.
  intros codec.
  destruct (GetBitrateConfigForCodec_exact_iff codec) as (Hmin & Hstart & Hmax).
  split_and!.
  - apply Hmin; [reflexivity|lia].
  - apply Hstart; [reflexivity|lia].
  - apply Hmax; [reflexivity|lia].
Defined.

Lemma GetBitrateConfigForCodec_sign_witness :
  let codec := [("x-google-min-bitrate"%string, 30);
                ("x-google-start-bitrate"%string, -5)] in
  (min_bitrate_bps (GetBitrateConfigForCodec codec) = 0 ∨
   1000 ≤ min_bitrate_bps (GetBitrateConfigForCodec codec)) ∧
  (start_bitrate_bps (GetBitrateConfigForCodec codec) = -1 ∨
   1000 ≤ start_bitrate_bps (GetBitrateConfigForCodec codec)) ∧
  (max_bitrate_bps (GetBitrateConfigForCodec codec) = -1 ∨
   1000 ≤ max_bitrate_bps (GetBitrateConfigForCodec codec)).
Proof.
  intros codec. apply GetBitrateConfigForCodec_sign.
  - simpl. lia.
  - simpl. lia.
  - exact I.
Defined.
End ShippedFurther.

(** ** The mutual-exclusion group: which uri remains *)

Section FilterGroupWinner.
Context `{RtpExtensionConstants}.

(** Under [outranked_in_one_form] an entry of the result whose uri is on the
    priority list carries the highest-priority uri that a supported candidate
    carries. *)
Lemma FilterRtpExtensions_group_highest (keep_abs_send_time : bool)
    (extensions : list RtpExtension) (supported : string → bool)
    (a : RtpExtension) :
  outranked_in_one_form keep_abs_send_time extensions supported →
  a ∈ group_entries (kBweExtensionPriorities keep_abs_send_time)
        (FilterRtpExtensions keep_abs_send_time extensions supported true) →
  highest_priority_supported keep_abs_send_time extensions supported (uri a).
Proof.
  intros Hform [Hgroup Ha]%list_elem_of_filter.
  destruct (FilterRtpExtensions_elem_of _ _ _ _ a Ha) as [Has Hain].
  set (R0 := unique unique_pred
               (c_sort sort_less (filter (λ e, supported (uri e)) extensions))).
  destruct (first_present_split (kBweExtensionPriorities keep_abs_send_time) R0)
    as [Hnone|(hi & u & lo & Hprio & Hhi & Hu)].
  - exfalso. unfold FilterRtpExtensions in Ha. fold R0 in Ha.
    rewrite DiscardRedundantExtensions_none_present in Ha by done.
    apply (Hnone (uri a) Hgroup), list_elem_of_fmap. by exists a.
  - rewrite (FilterRtpExtensions_first_present _ _ _ hi u lo) in Ha by done.
    fold R0 in Ha. apply list_elem_of_filter in Ha as [Hlo Ha0].
    assert (Huri : uri a = u).
    { rewrite Hprio in Hgroup.
      apply elem_of_app in Hgroup as [Hg|[Hg|Hg]%elem_of_cons]; [|done..].
      destruct (Hhi (uri a) Hg). apply list_elem_of_fmap. by exists a. }
    exists hi, lo. split_and!.
    + by rewrite Huri.
    + exists a. split_and!; [done| |done]. by destruct (supported (uri a)).
    + intros c Hc Hcs Hin.
      destruct (unique_c_sort_key_present c
                  (filter (λ e, supported (uri e)) extensions))
        as (y & Hy & Hkey).
      { apply list_elem_of_filter. split; [by rewrite Hcs|done]. }
      apply (Hhi (uri c) Hin), list_elem_of_fmap. exists y.
      split; [by rewrite (ext_key_uri y c)|done].
Qed.

(** A sufficient condition for [outranked_in_one_form] that can be checked
    on the list: only the first uri of the priority list occurs in both
    encryption forms. *)
Lemma one_form_below_first (keep_abs_send_time : bool)
    (extensions : list RtpExtension) (supported : string → bool) :
  Forall (λ a, Forall (λ b,
    uri a ∈ tail (kBweExtensionPriorities keep_abs_send_time) →
    uri b = uri a → encrypt a = encrypt b) extensions) extensions →
  outranked_in_one_form keep_abs_send_time extensions supported.
Proof.
  intros Hall hi u lo Hprio _ a b Ha Hb _ Hlo Hab.
  rewrite Forall_forall in Hall. specialize (Hall a Ha).
  rewrite Forall_forall in Hall. apply (Hall b Hb); [|done].
  rewrite Hprio. destruct hi as [|w hi]; simpl; [done|].
  apply elem_of_app. right. by right.
Qed.
End FilterGroupWinner.

(** C6, as the code has it.  For a valid input in which every uri of the
    active priority list ranked below a supported one occurs in a single
    encryption form, the entries of the result that belong to the list all
    carry one uri, the highest-priority uri of the list that a supported
    candidate carries, and differ in their encryption flag: at most the
    encrypted and the unencrypted entry of that uri remain. *)
Theorem FilterRtpExtensions_group_single_uri `{RtpExtensionConstants}
    (keep_abs_send_time : bool) (extensions : list RtpExtension)
    (supported : string → bool) :
  ValidateRtpExtensions extensions = true →
  outranked_in_one_form keep_abs_send_time extensions supported →
  let group := group_entries (kBweExtensionPriorities keep_abs_send_time)
                 (FilterRtpExtensions keep_abs_send_time extensions supported
                    true) in
  (∀ a, a ∈ group →
        highest_priority_supported keep_abs_send_time extensions supported
          (uri a)) ∧
  (∀ a b, a ∈ group → b ∈ group → uri a = uri b) ∧
  NoDup (encrypt <$> group).
Proof.
  intros _ Hform group.
  assert (Huri : ∀ a b, a ∈ group → b ∈ group → uri a = uri b).
  { intros a b. by apply FilterRtpExtensions_group_uri. }
  split_and!; [|done|].
  { intros a. by apply FilterRtpExtensions_group_highest. }
  assert (Hkeys : NoDup (ext_key <$> group)).
  { apply sort_lt_sorted_NoDup_keys.
    eapply StronglySorted_sublist; [apply sublist_filter|].
    apply FilterRtpExtensions_redundant_sorted. }
  change (encrypt <$> group) with (fst ∘ ext_key <$> group).
  rewrite list_fmap_compose.
  apply NoDup_fmap_2_strong; [|done].
  intros k1 k2 (a & -> & Ha)%list_elem_of_fmap (b & -> & Hb)%list_elem_of_fmap.
  unfold ext_key. simpl. intros Henc. f_equal; [done|]. by apply Huri.
Qed.

Section ShippedGroup.
#[local] Existing Instance webrtc_constants.

(** Transport-sequence-number offered encrypted and unencrypted next to
    absolute-send-time and timestamp-offset: both forms of the first stay and
    nothing else of the group does. *)
Example FilterRtpExtensions_group_both_forms :
  FilterRtpExtensions false
    [mkRtpExtension kTimestampOffsetUri 1 false;
     mkRtpExtension kAbsSendTimeUri 2 false;
     mkRtpExtension kTransportSequenceNumberUri 3 true;
     mkRtpExtension kTransportSequenceNumberUri 4 false] all_supported true
  = [mkRtpExtension kTransportSequenceNumberUri 3 true;
     mkRtpExtension kTransportSequenceNumberUri 4 false].
Proof. vm_compute. reflexivity. Qed.

Lemma FilterRtpExtensions_group_single_uri_witness :
  let extensions := [mkRtpExtension kTimestampOffsetUri 1 false;
                     mkRtpExtension kAbsSendTimeUri 2 false;
                     mkRtpExtension kTransportSequenceNumberUri 3 true;
                     mkRtpExtension kTransportSequenceNumberUri 4 false] in
  ValidateRtpExtensions extensions = true ∧
  outranked_in_one_form false extensions all_supported ∧
  let group := group_entries (kBweExtensionPriorities false)
                 (FilterRtpExtensions false extensions all_supported true) in
  (∀ a, a ∈ group →
        highest_priority_supported false extensions all_supported (uri a)) ∧
  (∀ a b, a ∈ group → b ∈ group → uri a = uri b) ∧
  NoDup (encrypt <$> group).
Proof.
  intros extensions.
  assert (Hform : outranked_in_one_form false extensions all_supported).
  { apply one_form_below_first. by apply (bool_decide_unpack _). }
  split; [reflexivity|]. split; [exact Hform|].
  apply FilterRtpExtensions_group_single_uri; [reflexivity|exact Hform].
Defined.
End ShippedGroup.
